(** * BufferWithExtendableBuffer

    A shallow embedding of
    [native/jni/src/suggest/policyimpl/dictionary/utils/buffer_with_extendable_buffer.h]
    and the properties of its checked write path.

    - [int] is a 32-bit two's complement integer, kept as a [Z] and
      renormalised by [to_int] after every arithmetic operation; C++ gives
      no meaning to a signed sum that overflows, and the results that depend
      on [pos + size] assume that it does not exceed [INT_MAX];
    - [size_t] is an unsigned integer of [SIZE_WIDTH] bits, renormalised by
      [to_size_t];
    - the two byte regions are lists of bytes (a byte is a [Z] in [0, 255]);
      a store outside a region has no defined behaviour in C++ and is
      modelled by [None]. *)

From Stdlib Require Import ZArith Lia String.
From stdpp Require Import base list.

Local Open Scope Z_scope.

(** ** Machine integers *)

Definition INT_MAX : Z := 2147483647.
Definition INT_MIN : Z := -2147483648.

(** Conversion to [int]: reduction modulo 2^32 into [INT_MIN, INT_MAX]. *)
Definition to_int (z : Z) : Z := (z + 2147483648) mod 4294967296 - 2147483648.

Definition is_int (z : Z) : Prop := INT_MIN <= z <= INT_MAX.

(** ** Build-time constants

    The three [static const size_t] members are declared in the header and
    defined elsewhere; they are taken as parameters, together with the width
    of [size_t]. *)

Record Constants := mkConstants {
  INITIAL_ADDITIONAL_BUFFER_SIZE : Z;
  MAX_ADDITIONAL_BUFFER_SIZE : Z;
  EXTEND_ADDITIONAL_BUFFER_SIZE_STEP : Z;
  SIZE_WIDTH : Z
}.

(** What the results below need of the constants: the initial size does not
    exceed the maximum, one growth step holds the widest value that can be
    written (4 bytes), and a maximal buffer extended once more still has a
    size that fits an [int] (so neither the [size_t] sum nor the cast to [int]
    of [checkAndPrepareWriting] wraps). *)
Record constants_ok (c : Constants) : Prop := mkConstantsOk {
  initial_nonneg : 0 <= INITIAL_ADDITIONAL_BUFFER_SIZE c;
  initial_le_max : INITIAL_ADDITIONAL_BUFFER_SIZE c <= MAX_ADDITIONAL_BUFFER_SIZE c;
  step_holds_uint : 4 <= EXTEND_ADDITIONAL_BUFFER_SIZE_STEP c;
  max_fits_int :
    MAX_ADDITIONAL_BUFFER_SIZE c + EXTEND_ADDITIONAL_BUFFER_SIZE_STEP c <= INT_MAX;
  size_width_ge : 32 <= SIZE_WIDTH c
}.

(** ** Diagnostics

    Modelled from the spec: the macros [AKLOGI] and [ASSERT] of [defines.h],
    which is not part of the sources. An invalid width "reports a diagnostic"
    and the failure is not "escalated to process-fatal termination": each
    macro adds an event to the diagnostics of the call and execution goes
    on. *)
Inductive Diagnostic : Type :=
| AKLOGI (format : string) (arg : Z)
| ASSERT (success : bool).

(** ** The byte encoder *)

Module ByteArrayUtils.

(** The assignment of [v] to the byte at index [pos] of a region of
    [length buffer] bytes. *)
Definition store (buffer : list Z) (pos : Z) (v : Z) : option (list Z) :=
  if (0 <=? pos) && (pos <? Z.of_nat (length buffer))
  then Some (<[Z.to_nat pos := v]> buffer)
  else None.

(** Modelled from the spec: the body of
    [ByteArrayUtils::writeUintAndAdvancePosition], most significant byte
    first. For [i] from [size - 1] down to [0] it stores the byte
    [(data >> (i * 8)) & 0xFF] at the cursor and increments the cursor; [n] is
    the number of iterations left. *)
Fixpoint writeLoop (n : nat) (buffer : list Z) (data : Z) (pos : Z)
  : option (list Z * Z) :=
  match n with
  | O => Some (buffer, pos)
  | S i =>
      match store buffer pos (Z.land (Z.shiftr data (Z.of_nat i * 8)) 255) with
      | None => None
      | Some buffer' => writeLoop i buffer' data (to_int (pos + 1))
      end
  end.

(** Modelled from the spec: [ByteArrayUtils::writeUintAndAdvancePosition] of
    [byte_array_utils.h], which is not part of the sources. It "writes
    [byteWidth] bytes of [value] (big-endian ...) into [targetBuffer]
    starting at [cursor], then advances [cursor] by [byteWidth]". The result
    is the new content of the buffer and the new cursor. *)
Definition writeUintAndAdvancePosition (buffer : list Z) (data : Z) (size : Z)
    (pos : Z) : option (list Z * Z) :=
  writeLoop (Z.to_nat size) buffer data pos.

End ByteArrayUtils.

(** ** The class *)

Record BufferWithExtendableBuffer := mkBuffer {
  mOriginalBuffer : list Z;          (* the bytes [mOriginalBuffer] points to *)
  mOriginalBufferSize : Z;           (* const int *)
  mAdditionalBuffer : list Z;        (* std::vector<uint8_t> *)
  mUsedAdditionalBufferSize : Z      (* int *)
}.

(** What a call of [writeUintAndAdvancePosition] leaves behind: the returned
    boolean, the object, the caller's [*pos] and the diagnostics emitted. *)
Record Outcome := mkOutcome {
  returned : bool;
  buffer_after : BufferWithExtendableBuffer;
  pos_after : Z;
  diagnostics : list Diagnostic
}.

Definition set_mAdditionalBuffer (b : BufferWithExtendableBuffer) (v : list Z) :=
  {| mOriginalBuffer := mOriginalBuffer b;
     mOriginalBufferSize := mOriginalBufferSize b;
     mAdditionalBuffer := v;
     mUsedAdditionalBufferSize := mUsedAdditionalBufferSize b |}.

Definition set_mOriginalBuffer (b : BufferWithExtendableBuffer) (v : list Z) :=
  {| mOriginalBuffer := v;
     mOriginalBufferSize := mOriginalBufferSize b;
     mAdditionalBuffer := mAdditionalBuffer b;
     mUsedAdditionalBufferSize := mUsedAdditionalBufferSize b |}.

Definition set_mUsedAdditionalBufferSize (b : BufferWithExtendableBuffer) (v : Z) :=
  {| mOriginalBuffer := mOriginalBuffer b;
     mOriginalBufferSize := mOriginalBufferSize b;
     mAdditionalBuffer := mAdditionalBuffer b;
     mUsedAdditionalBufferSize := v |}.

(** [mAdditionalBuffer.size()]. *)
Definition additionalSize (b : BufferWithExtendableBuffer) : Z :=
  Z.of_nat (length (mAdditionalBuffer b)).

Definition getTailPosition (b : BufferWithExtendableBuffer) : Z :=
  to_int (mOriginalBufferSize b + mUsedAdditionalBufferSize b).

Definition isInAdditionalBuffer (b : BufferWithExtendableBuffer) (position : Z) : bool :=
  mOriginalBufferSize b <=? position.

Definition getBuffer (b : BufferWithExtendableBuffer) (usesAdditionalBuffer : bool)
  : list Z :=
  if usesAdditionalBuffer then mAdditionalBuffer b else mOriginalBuffer b.

Definition getOriginalBufferSize (b : BufferWithExtendableBuffer) : Z :=
  mOriginalBufferSize b.

Section WithConstants.

Variable c : Constants.

Definition to_size_t (z : Z) : Z := z mod 2 ^ SIZE_WIDTH c.

(** The constructor: the additional buffer is a vector of
    [INITIAL_ADDITIONAL_BUFFER_SIZE] zero bytes, none of them used. *)
Definition construct (originalBuffer : list Z) (originalBufferSize : Z)
  : BufferWithExtendableBuffer :=
  {| mOriginalBuffer := originalBuffer;
     mOriginalBufferSize := originalBufferSize;
     mAdditionalBuffer := replicate (Z.to_nat (INITIAL_ADDITIONAL_BUFFER_SIZE c)) 0;
     mUsedAdditionalBufferSize := 0 |}.

(** [std::vector::resize] keeps the first elements and pads with zeros. *)
Definition extendBuffer (b : BufferWithExtendableBuffer)
  : bool * BufferWithExtendableBuffer :=
  let newSize := to_size_t (additionalSize b + EXTEND_ADDITIONAL_BUFFER_SIZE_STEP c) in
  if MAX_ADDITIONAL_BUFFER_SIZE c <? newSize then (false, b)
  else (true, set_mAdditionalBuffer b (resize (Z.to_nat newSize) 0 (mAdditionalBuffer b))).

Definition checkAndPrepareWriting (b : BufferWithExtendableBuffer) (pos size : Z)
  : bool * BufferWithExtendableBuffer :=
  if isInAdditionalBuffer b pos then
    if pos =? mUsedAdditionalBufferSize b then
      (* Append data to the tail. *)
      let extended :=
        if to_int (additionalSize b) <? to_int (pos + size)
        then extendBuffer b       (* Need to extend buffer. *)
        else (true, b) in
      match extended with
      | (false, b') => (false, b')
      | (true, b') =>
          (true, set_mUsedAdditionalBufferSize b'
                   (to_int (mUsedAdditionalBufferSize b' + size)))
      end
    else if mUsedAdditionalBufferSize b <=? to_int (pos + size) then
      (* The access will beyond the tail of used region. *)
      (false, b)
    else (true, b)
  else
    if (pos <? 0) || (mOriginalBufferSize b <? to_int (pos + size)) then
      (* Invalid position or violate the boundary. *)
      (false, b)
    else (true, b).

Definition writeUintAndAdvancePosition (b : BufferWithExtendableBuffer)
    (data : Z) (size : Z) (pos : Z) : option Outcome :=
  if negb ((1 <=? size) && (size <=? 4)) then
    Some (mkOutcome false b pos
            [AKLOGI "writeUintAndAdvancePosition() is called with invalid size: %d" size;
             ASSERT false])
  else
    match checkAndPrepareWriting b pos size with
    | (false, b1) => Some (mkOutcome false b1 pos [])
    | (true, b1) =>
        let usesAdditionalBuffer := isInAdditionalBuffer b1 pos in
        if usesAdditionalBuffer then
          let pos1 := to_int (pos - mOriginalBufferSize b1) in
          match ByteArrayUtils.writeUintAndAdvancePosition
                  (mAdditionalBuffer b1) data size pos1 with
          | None => None
          | Some (bytes, pos2) =>
              Some (mkOutcome true (set_mAdditionalBuffer b1 bytes)
                      (to_int (pos2 + mOriginalBufferSize b1)) [])
          end
        else
          match ByteArrayUtils.writeUintAndAdvancePosition
                  (mOriginalBuffer b1) data size pos with
          | None => None
          | Some (bytes, pos2) =>
              Some (mkOutcome true (set_mOriginalBuffer b1 bytes) pos2 [])
          end
    end.

(** The object after a call; a call without defined behaviour leaves no
    object to continue with, and [after] then keeps the one it had. *)
Definition after (b : BufferWithExtendableBuffer) (data size pos : Z)
  : BufferWithExtendableBuffer :=
  match writeUintAndAdvancePosition b data size pos with
  | Some o => buffer_after o
  | None => b
  end.

(** A construction is valid when the original region really has
    [originalBufferSize] bytes. *)
Definition valid_construction (originalBuffer : list Z) (originalBufferSize : Z)
  : Prop :=
  Z.of_nat (length originalBuffer) = originalBufferSize /\ originalBufferSize <= INT_MAX.

(** The objects a program can hold: a validly constructed one, and what any
    completed call makes of it. *)
Inductive reachable : BufferWithExtendableBuffer -> Prop :=
| reachable_construct originalBuffer originalBufferSize :
    valid_construction originalBuffer originalBufferSize ->
    reachable (construct originalBuffer originalBufferSize)
| reachable_write b data size pos o :
    reachable b ->
    writeUintAndAdvancePosition b data size pos = Some o ->
    reachable (buffer_after o).

End WithConstants.

(** ** Invariants *)

(** The original region has the size the object records for it. *)
Definition original_valid (b : BufferWithExtendableBuffer) : Prop :=
  Z.of_nat (length (mOriginalBuffer b)) = mOriginalBufferSize b /\
  mOriginalBufferSize b <= INT_MAX.

(** The used part of the additional buffer lies within its storage, and the
    storage within the maximum. *)
Definition used_within_capacity (c : Constants) (b : BufferWithExtendableBuffer) : Prop :=
  0 <= mUsedAdditionalBufferSize b <= additionalSize b /\
  additionalSize b <= MAX_ADDITIONAL_BUFFER_SIZE c.

(** [checkAndPrepareWriting] recognises an append by
    [pos == mUsedAdditionalBufferSize] on a [pos] that is at least
    [mOriginalBufferSize]: starting from [0], the used size only ever leaves
    [0] when the original region is empty. *)
Definition appended_only_if_no_original (b : BufferWithExtendableBuffer) : Prop :=
  mOriginalBufferSize b = 0 \/ mUsedAdditionalBufferSize b = 0.

(** Two objects with regions of the same sizes and the same used size. *)
Definition same_layout (b1 b2 : BufferWithExtendableBuffer) : Prop :=
  length (mOriginalBuffer b1) = length (mOriginalBuffer b2) /\
  mOriginalBufferSize b1 = mOriginalBufferSize b2 /\
  length (mAdditionalBuffer b1) = length (mAdditionalBuffer b2) /\
  mUsedAdditionalBufferSize b1 = mUsedAdditionalBufferSize b2.

(** What every reachable object satisfies. *)
Definition well_formed (c : Constants) (b : BufferWithExtendableBuffer) : Prop :=
  original_valid b /\ used_within_capacity c b /\ appended_only_if_no_original b.

(** What of an encoder result does not depend on the value: whether the
    encoder is defined, the size of the region and the cursor. *)
Definition same_shape (r1 r2 : option (list Z * Z)) : Prop :=
  match r1, r2 with
  | Some (bytes1, pos1), Some (bytes2, pos2) =>
      length bytes1 = length bytes2 /\ pos1 = pos2
  | None, None => True
  | _, _ => False
  end.

(** ** Objects to run the code on

    The constants of a small build, an object without original region that
    received a 4-byte and a 2-byte value, one that was filled to the maximum,
    and one with an original region of 10 bytes. *)
Definition small : Constants := mkConstants 8 16 4 32.

Definition fresh : BufferWithExtendableBuffer := construct small [] 0.

Definition appended : BufferWithExtendableBuffer :=
  after small (after small fresh 16909060 4 0) 43981 2 4.

Definition full : BufferWithExtendableBuffer :=
  after small (after small (after small (after small fresh 1 4 0) 2 4 4) 3 4 8) 4 4 12.

Definition with_original : BufferWithExtendableBuffer :=
  construct small (replicate 10 0) 10.

(** An object whose initial storage of 8 bytes is used up, so that the next
    append has to extend it. *)
Definition initial_used_up : BufferWithExtendableBuffer :=
  after small (after small fresh 16909060 4 0) 84281096 4 4.

(** ** Arithmetic and the byte encoder *)

(** Case analysis on every integer comparison in sight. *)
Ltac cases_cmp :=
  repeat match goal with
    | |- context [?a <=? ?b] => destruct (Z.leb_spec a b)
    | |- context [?a <? ?b] => destruct (Z.ltb_spec a b)
    | |- context [?a =? ?b] => destruct (Z.eqb_spec a b)
    | H : context [?a <=? ?b] |- _ => destruct (Z.leb_spec a b)
    | H : context [?a <? ?b] |- _ => destruct (Z.ltb_spec a b)
    | H : context [?a =? ?b] |- _ => destruct (Z.eqb_spec a b)
    end; simpl in *.

Lemma to_int_id z : is_int z -> to_int z = z.
Proof.
  unfold is_int, INT_MIN, INT_MAX, to_int. intros Hz.
  rewrite Z.mod_small; lia.
Qed.

Lemma to_int_is_int z : is_int (to_int z).
Proof.
  unfold is_int, INT_MIN, INT_MAX, to_int.
  pose proof (Z.mod_pos_bound (z + 2147483648) 4294967296). lia.
Qed.

Lemma to_size_t_id c z :
  32 <= SIZE_WIDTH c -> 0 <= z <= INT_MAX -> to_size_t c z = z.
Proof.
  unfold to_size_t, INT_MAX. intros Hw Hz. apply Z.mod_small.
  assert (2 ^ 32 <= 2 ^ SIZE_WIDTH c) by (apply Z.pow_le_mono_r; lia).
  change (2 ^ 32) with 4294967296 in *. lia.
Qed.

Lemma store_length buffer pos v buffer' :
  ByteArrayUtils.store buffer pos v = Some buffer' -> length buffer' = length buffer.
Proof.
  unfold ByteArrayUtils.store. intros H.
  destruct ((0 <=? pos) && (pos <? Z.of_nat (length buffer))); [|discriminate].
  injection H as <-. apply length_insert.
Qed.

Lemma store_defined buffer pos v :
  0 <= pos < Z.of_nat (length buffer) ->
  ByteArrayUtils.store buffer pos v = Some (<[Z.to_nat pos := v]> buffer).
Proof.
  unfold ByteArrayUtils.store. intros H. cases_cmp; (reflexivity || lia).
Qed.

Lemma writeLoop_length n : forall buffer data pos buffer' pos',
  ByteArrayUtils.writeLoop n buffer data pos = Some (buffer', pos') ->
  length buffer' = length buffer.
Proof.
  induction n as [|n IH]; simpl; intros buffer data pos buffer' pos' H.
  - congruence.
  - destruct (ByteArrayUtils.store buffer pos _) as [b1|] eqn:E; [|discriminate].
    apply IH in H. apply store_length in E. congruence.
Qed.

(** Within the region the encoder is defined and advances the cursor by the
    number of bytes written. *)
Lemma writeLoop_defined n : forall buffer data pos,
  0 <= pos -> pos + Z.of_nat n <= Z.of_nat (length buffer) ->
  pos + Z.of_nat n <= INT_MAX ->
  exists buffer', ByteArrayUtils.writeLoop n buffer data pos
                  = Some (buffer', pos + Z.of_nat n).
Proof.
  induction n as [|n IH]; simpl ByteArrayUtils.writeLoop; intros buffer data pos H0 Hlen Hmax.
  - exists buffer. do 2 f_equal. lia.
  - rewrite store_defined by lia.
    rewrite to_int_id by (unfold is_int, INT_MIN; lia).
    destruct (IH (<[Z.to_nat pos := Z.land (Z.shiftr data (Z.of_nat n * 8)) 255]> buffer)
                data (pos + 1)) as [b' Hb'].
    + lia.
    + rewrite length_insert. lia.
    + lia.
    + exists b'. rewrite Hb'. do 2 f_equal. lia.
Qed.

Lemma encoder_length buffer data size pos buffer' pos' :
  ByteArrayUtils.writeUintAndAdvancePosition buffer data size pos = Some (buffer', pos') ->
  length buffer' = length buffer.
Proof. apply writeLoop_length. Qed.

Lemma encoder_defined buffer data size pos :
  0 <= size -> 0 <= pos -> pos + size <= Z.of_nat (length buffer) ->
  pos + size <= INT_MAX ->
  exists buffer', ByteArrayUtils.writeUintAndAdvancePosition buffer data size pos
                  = Some (buffer', pos + size).
Proof.
  intros Hs H0 Hlen Hmax. unfold ByteArrayUtils.writeUintAndAdvancePosition.
  destruct (writeLoop_defined (Z.to_nat size) buffer data pos) as [b' Hb']; try lia.
  exists b'. rewrite Hb'. do 2 f_equal. lia.
Qed.

(** ** What a call leaves untouched *)

Section Frame.

Variable c : Constants.

Lemma extendBuffer_false b b' : extendBuffer c b = (false, b') -> b' = b.
Proof.
  unfold extendBuffer.
  destruct (MAX_ADDITIONAL_BUFFER_SIZE c <? _); congruence.
Qed.

Lemma extendBuffer_frame b r b' :
  extendBuffer c b = (r, b') ->
  mOriginalBuffer b' = mOriginalBuffer b /\
  mOriginalBufferSize b' = mOriginalBufferSize b /\
  mUsedAdditionalBufferSize b' = mUsedAdditionalBufferSize b.
Proof.
  unfold extendBuffer.
  destruct (MAX_ADDITIONAL_BUFFER_SIZE c <? _); intros [= <- <-]; auto.
Qed.

(** A refused permission has changed nothing. *)
Lemma checkAndPrepareWriting_false b pos size b' :
  checkAndPrepareWriting c b pos size = (false, b') -> b' = b.
Proof.
  unfold checkAndPrepareWriting.
  destruct (isInAdditionalBuffer b pos).
  - destruct (pos =? mUsedAdditionalBufferSize b).
    + destruct (to_int (additionalSize b) <? to_int (pos + size)).
      * destruct (extendBuffer c b) as [[|] b1] eqn:E; [discriminate|].
        intros [= <-]. eauto using extendBuffer_false.
      * discriminate.
    + destruct (mUsedAdditionalBufferSize b <=? to_int (pos + size)); congruence.
  - destruct ((pos <? 0) || (mOriginalBufferSize b <? to_int (pos + size))); congruence.
Qed.

(** The permission check never touches the original region, and it leaves
    the whole object alone when the position is in the original region. *)
Lemma checkAndPrepareWriting_frame b pos size r b' :
  checkAndPrepareWriting c b pos size = (r, b') ->
  mOriginalBuffer b' = mOriginalBuffer b /\
  mOriginalBufferSize b' = mOriginalBufferSize b /\
  (isInAdditionalBuffer b pos = false -> b' = b).
Proof.
  unfold checkAndPrepareWriting.
  destruct (isInAdditionalBuffer b pos).
  - destruct (pos =? mUsedAdditionalBufferSize b).
    + destruct (to_int (additionalSize b) <? to_int (pos + size)).
      * destruct (extendBuffer c b) as [[|] b1] eqn:E;
          apply extendBuffer_frame in E as (? & ? & ?);
          intros [= <- <-]; simpl; repeat split; (congruence || discriminate).
      * intros [= <- <-]; simpl; repeat split; (congruence || discriminate).
    + destruct (mUsedAdditionalBufferSize b <=? to_int (pos + size));
        intros [= <- <-]; repeat split; discriminate.
  - destruct ((pos <? 0) || (mOriginalBufferSize b <? to_int (pos + size)));
      intros [= <- <-]; auto.
Qed.

End Frame.

(** C3. Atomicity on failure: whenever [writeUintAndAdvancePosition] returns
    [false], whatever the reason (invalid width, write out of bounds, refused
    growth), the object is exactly the one before the call, hence the used
    size, the capacity, the tail position and every byte of both regions are
    unchanged, and so is the caller's position. *)
Theorem failed_write_changes_nothing c b data size pos o :
  writeUintAndAdvancePosition c b data size pos = Some o ->
  returned o = false ->
  buffer_after o = b /\ pos_after o = pos /\
  getTailPosition (buffer_after o) = getTailPosition b /\
  additionalSize (buffer_after o) = additionalSize b.
Proof.
  unfold writeUintAndAdvancePosition. intros Hcall Hret.
  assert (buffer_after o = b /\ pos_after o = pos) as [Hb Hp].
  { destruct (negb ((1 <=? size) && (size <=? 4))).
    - injection Hcall as <-. auto.
    - destruct (checkAndPrepareWriting c b pos size) as [[|] b1] eqn:E.
      + destruct (isInAdditionalBuffer b1 pos);
          destruct (ByteArrayUtils.writeUintAndAdvancePosition _ _ _ _) as [[bytes pos2]|];
          try discriminate; injection Hcall as <-; discriminate.
      + injection Hcall as <-. simpl. split; [|reflexivity].
        eauto using checkAndPrepareWriting_false. }
  rewrite Hb. auto.
Qed.

Lemma failed_write_changes_nothing_witness :
  writeUintAndAdvancePosition small with_original 16909060 4 10
  = Some (mkOutcome false with_original 10 []) /\
  buffer_after (mkOutcome false with_original 10 []) = with_original /\
  pos_after (mkOutcome false with_original 10 []) = 10 /\
  getTailPosition (buffer_after (mkOutcome false with_original 10 []))
  = getTailPosition with_original /\
  additionalSize (buffer_after (mkOutcome false with_original 10 []))
  = additionalSize with_original.
Proof.
  split; [reflexivity|].
  apply (failed_write_changes_nothing small with_original 16909060 4 10
           (mkOutcome false with_original 10 [])); reflexivity.
Defined.

(** C6. A byte width outside [1, 4] makes the call return [false] at once:
    the outcome is fixed before the permission check is consulted, the object
    and the caller's position are the ones of before the call, and the
    diagnostic is emitted. *)
Theorem invalid_width_refused c b data size pos :
  ~ (1 <= size <= 4) ->
  writeUintAndAdvancePosition c b data size pos
  = Some (mkOutcome false b pos
            [AKLOGI "writeUintAndAdvancePosition() is called with invalid size: %d" size;
             ASSERT false]).
Proof.
  intros Hsize. unfold writeUintAndAdvancePosition.
  cases_cmp; (reflexivity || lia).
Qed.

Lemma invalid_width_refused_witness :
  writeUintAndAdvancePosition small appended 255 5 6
  = Some (mkOutcome false appended 6
            [AKLOGI "writeUintAndAdvancePosition() is called with invalid size: %d" 5;
             ASSERT false]).
Proof. apply (invalid_width_refused small appended 255 5 6). lia. Defined.

(** C9. Region isolation: a permitted write at a position of the additional
    region leaves every byte of the original region as it was; a permitted
    write at a position of the original region leaves the additional buffer
    (bytes and capacity) and the used size as they were; so a successful call
    stores into one region only. *)
Theorem write_touches_one_region c b data size pos o :
  writeUintAndAdvancePosition c b data size pos = Some o ->
  returned o = true ->
  (isInAdditionalBuffer b pos = true ->
     mOriginalBuffer (buffer_after o) = mOriginalBuffer b) /\
  (isInAdditionalBuffer b pos = false ->
     mAdditionalBuffer (buffer_after o) = mAdditionalBuffer b /\
     additionalSize (buffer_after o) = additionalSize b /\
     mUsedAdditionalBufferSize (buffer_after o) = mUsedAdditionalBufferSize b) /\
  mOriginalBufferSize (buffer_after o) = mOriginalBufferSize b.
Proof.
  unfold writeUintAndAdvancePosition. intros Hcall Hret.
  destruct (negb ((1 <=? size) && (size <=? 4))).
  { injection Hcall as <-. discriminate. }
  destruct (checkAndPrepareWriting c b pos size) as [[|] b1] eqn:E.
  2: { injection Hcall as <-. discriminate. }
  apply checkAndPrepareWriting_frame in E as (Hbytes & Hsize & Hsame).
  assert (isInAdditionalBuffer b1 pos = isInAdditionalBuffer b pos) as Hin
    by (unfold isInAdditionalBuffer; congruence).
  rewrite Hin in Hcall.
  destruct (isInAdditionalBuffer b pos);
    destruct (ByteArrayUtils.writeUintAndAdvancePosition _ _ _ _) as [[bytes pos2]|];
    try discriminate; injection Hcall as <-; simpl.
  - repeat split; intros; first [assumption | discriminate].
  - rewrite (Hsame eq_refl). repeat split; intros; first [reflexivity | discriminate].
Qed.

Lemma write_touches_one_region_witness :
  (isInAdditionalBuffer with_original 3 = true ->
   mOriginalBuffer (after small with_original 4294967295 4 3)
   = mOriginalBuffer with_original) /\
  (isInAdditionalBuffer with_original 3 = false ->
   mAdditionalBuffer (after small with_original 4294967295 4 3)
   = mAdditionalBuffer with_original /\
   additionalSize (after small with_original 4294967295 4 3)
   = additionalSize with_original /\
   mUsedAdditionalBufferSize (after small with_original 4294967295 4 3)
   = mUsedAdditionalBufferSize with_original) /\
  mOriginalBufferSize (after small with_original 4294967295 4 3)
  = mOriginalBufferSize with_original.
Proof.
  apply (write_touches_one_region small with_original 4294967295 4 3
           (mkOutcome true (after small with_original 4294967295 4 3) 7 []));
    reflexivity.
Defined.

(** ** The value written decides nothing but the bytes *)

Lemma store_same_shape buffer1 buffer2 pos v1 v2 :
  length buffer1 = length buffer2 ->
  match ByteArrayUtils.store buffer1 pos v1, ByteArrayUtils.store buffer2 pos v2 with
  | Some bytes1, Some bytes2 => length bytes1 = length bytes2
  | None, None => True
  | _, _ => False
  end.
Proof.
  intros Hlen. unfold ByteArrayUtils.store. rewrite Hlen.
  destruct ((0 <=? pos) && (pos <? Z.of_nat (length buffer2))); [|exact I].
  rewrite !length_insert. exact Hlen.
Qed.

Lemma writeLoop_same_shape n : forall buffer1 buffer2 data1 data2 pos,
  length buffer1 = length buffer2 ->
  same_shape (ByteArrayUtils.writeLoop n buffer1 data1 pos)
             (ByteArrayUtils.writeLoop n buffer2 data2 pos).
Proof.
  induction n as [|n IH]; intros buffer1 buffer2 data1 data2 pos Hlen; simpl.
  - auto.
  - pose proof (store_same_shape buffer1 buffer2 pos
                  (Z.land (Z.shiftr data1 (Z.of_nat n * 8)) 255)
                  (Z.land (Z.shiftr data2 (Z.of_nat n * 8)) 255) Hlen) as Hs.
    destruct (ByteArrayUtils.store buffer1 _ _), (ByteArrayUtils.store buffer2 _ _);
      simpl; try contradiction; auto.
Qed.

(** C10. The value written has no influence on the permission: two calls
    from the same object with the same position and width, whatever the two
    values, are both defined or both undefined, and when defined they return
    the same boolean and leave the same used size, the same capacity, the same
    tail position and the same final position. *)
Theorem permission_independent_of_value c b data1 data2 size pos :
  match writeUintAndAdvancePosition c b data1 size pos,
        writeUintAndAdvancePosition c b data2 size pos with
  | Some o1, Some o2 =>
      returned o1 = returned o2 /\
      mUsedAdditionalBufferSize (buffer_after o1)
        = mUsedAdditionalBufferSize (buffer_after o2) /\
      additionalSize (buffer_after o1) = additionalSize (buffer_after o2) /\
      getTailPosition (buffer_after o1) = getTailPosition (buffer_after o2) /\
      pos_after o1 = pos_after o2
  | None, None => True
  | _, _ => False
  end.
Proof.
  unfold writeUintAndAdvancePosition.
  destruct (negb ((1 <=? size) && (size <=? 4))); [auto|].
  destruct (checkAndPrepareWriting c b pos size) as [[|] b1]; [|auto].
  destruct (isInAdditionalBuffer b1 pos).
  - pose proof (writeLoop_same_shape (Z.to_nat size) (mAdditionalBuffer b1)
                  (mAdditionalBuffer b1) data1 data2
                  (to_int (pos - mOriginalBufferSize b1)) eq_refl) as Hs.
    unfold ByteArrayUtils.writeUintAndAdvancePosition.
    destruct (ByteArrayUtils.writeLoop _ _ data1 _) as [[bytes1 p1]|],
             (ByteArrayUtils.writeLoop _ _ data2 _) as [[bytes2 p2]|];
      simpl in Hs; try contradiction; [|exact I].
    destruct Hs as [Hlen ->]. unfold additionalSize, getTailPosition. simpl.
    rewrite Hlen. auto.
  - pose proof (writeLoop_same_shape (Z.to_nat size) (mOriginalBuffer b1)
                  (mOriginalBuffer b1) data1 data2 pos eq_refl) as Hs.
    unfold ByteArrayUtils.writeUintAndAdvancePosition.
    destruct (ByteArrayUtils.writeLoop _ _ data1 _) as [[bytes1 p1]|],
             (ByteArrayUtils.writeLoop _ _ data2 _) as [[bytes2 p2]|];
      simpl in Hs; try contradiction; [|exact I].
    destruct Hs as [Hlen ->]. unfold additionalSize, getTailPosition. simpl. auto.
Qed.

(** ** Calls on a well-formed object *)

Lemma same_layout_well_formed c b1 b2 :
  same_layout b1 b2 -> well_formed c b2 -> well_formed c b1.
Proof.
  unfold same_layout, well_formed, original_valid, used_within_capacity,
    appended_only_if_no_original, additionalSize.
  intros (-> & -> & -> & ->). auto.
Qed.

Lemma same_layout_tail b1 b2 :
  same_layout b1 b2 ->
  getTailPosition b1 = getTailPosition b2 /\ additionalSize b1 = additionalSize b2.
Proof.
  unfold same_layout, getTailPosition, additionalSize. intros (_ & -> & -> & ->). auto.
Qed.

Section WellFormed.

Variable c : Constants.
Hypothesis c_ok : constants_ok c.

Lemma construct_well_formed originalBuffer originalBufferSize :
  valid_construction originalBuffer originalBufferSize ->
  well_formed c (construct c originalBuffer originalBufferSize).
Proof.
  destruct c_ok. intros [Hlen Hmax].
  unfold well_formed, original_valid, used_within_capacity,
    appended_only_if_no_original, additionalSize; simpl.
  rewrite length_replicate, Z2Nat.id by assumption. lia.
Qed.

(** The append branch, freed of its conversions. *)
Lemma checkAndPrepareWriting_append b size :
  used_within_capacity c b -> 1 <= size <= 4 ->
  mOriginalBufferSize b <= mUsedAdditionalBufferSize b ->
  checkAndPrepareWriting c b (mUsedAdditionalBufferSize b) size
  = if additionalSize b <? mUsedAdditionalBufferSize b + size then
      if MAX_ADDITIONAL_BUFFER_SIZE c
           <? additionalSize b + EXTEND_ADDITIONAL_BUFFER_SIZE_STEP c
      then (false, b)
      else (true,
            set_mUsedAdditionalBufferSize
              (set_mAdditionalBuffer b
                 (resize (Z.to_nat (additionalSize b
                                    + EXTEND_ADDITIONAL_BUFFER_SIZE_STEP c))
                    0 (mAdditionalBuffer b)))
              (mUsedAdditionalBufferSize b + size))
    else (true, set_mUsedAdditionalBufferSize b (mUsedAdditionalBufferSize b + size)).
Proof.
  destruct c_ok. intros [Hused Hcap] Hsize Horig.
  unfold checkAndPrepareWriting, isInAdditionalBuffer, extendBuffer.
  rewrite (to_int_id (additionalSize b)) by (unfold is_int, INT_MIN; lia).
  rewrite (to_int_id (_ + size)) by (unfold is_int, INT_MIN; lia).
  rewrite to_size_t_id by (unfold additionalSize in *; lia).
  rewrite (proj2 (Z.leb_le _ _) Horig), Z.eqb_refl.
  destruct (additionalSize b <? mUsedAdditionalBufferSize b + size); [|simpl].
  - destruct (MAX_ADDITIONAL_BUFFER_SIZE c <? _); [reflexivity|]. simpl.
    rewrite to_int_id by (unfold is_int, INT_MIN; lia). reflexivity.
  - rewrite to_int_id by (unfold is_int, INT_MIN; lia). reflexivity.
Qed.

(** Away from the append position the check reads the object and leaves it
    alone. *)
Lemma checkAndPrepareWriting_elsewhere b pos size :
  pos <> mUsedAdditionalBufferSize b \/ pos < mOriginalBufferSize b ->
  checkAndPrepareWriting c b pos size
  = (if mOriginalBufferSize b <=? pos
     then negb (mUsedAdditionalBufferSize b <=? to_int (pos + size))
     else negb ((pos <? 0) || (mOriginalBufferSize b <? to_int (pos + size))),
     b).
Proof.
  intros Hpos. unfold checkAndPrepareWriting, isInAdditionalBuffer.
  destruct (Z.leb_spec (mOriginalBufferSize b) pos).
  - destruct (Z.eqb_spec pos (mUsedAdditionalBufferSize b)); [lia|].
    destruct (mUsedAdditionalBufferSize b <=? to_int (pos + size)); reflexivity.
  - destruct ((pos <? 0) || (mOriginalBufferSize b <? to_int (pos + size))); reflexivity.
Qed.

(** A granted permission keeps the object well formed, never lowers the used
    size, and covers the bytes that are about to be stored. *)
Lemma checkAndPrepareWriting_granted b pos size b1 :
  well_formed c b -> 1 <= size <= 4 ->
  checkAndPrepareWriting c b pos size = (true, b1) ->
  well_formed c b1 /\
  mOriginalBufferSize b1 = mOriginalBufferSize b /\
  mUsedAdditionalBufferSize b <= mUsedAdditionalBufferSize b1 /\
  (pos + size <= INT_MAX ->
   if mOriginalBufferSize b <=? pos
   then pos + size <= mOriginalBufferSize b + additionalSize b1
   else 0 <= pos /\ pos + size <= mOriginalBufferSize b).
Proof.
  destruct c_ok. intros (Hval & Hcap & Happ) Hsize.
  assert (0 <= mOriginalBufferSize b) as Horig0 by (destruct Hval; lia).
  destruct (Z.eq_dec pos (mUsedAdditionalBufferSize b)) as [->|Hne];
    [destruct (Z.le_gt_cases (mOriginalBufferSize b) (mUsedAdditionalBufferSize b))
      as [Hle|Hlt]|].
  - (* append *)
    rewrite checkAndPrepareWriting_append by assumption.
    assert (mOriginalBufferSize b = 0) as Hzero by (destruct Happ, Hcap; lia).
    unfold well_formed, original_valid, used_within_capacity,
      appended_only_if_no_original, additionalSize in *.
    destruct Hval, Hcap as [[? ?] ?].
    destruct (Z.ltb_spec (Z.of_nat (length (mAdditionalBuffer b)))
                (mUsedAdditionalBufferSize b + size)).
    + destruct (Z.ltb_spec (MAX_ADDITIONAL_BUFFER_SIZE c)
                  (Z.of_nat (length (mAdditionalBuffer b))
                   + EXTEND_ADDITIONAL_BUFFER_SIZE_STEP c)); [discriminate|].
      intros [= <-]. simpl. rewrite length_resize.
      rewrite (proj2 (Z.leb_le _ _) Hle). lia.
    + intros [= <-]. simpl. rewrite (proj2 (Z.leb_le _ _) Hle). lia.
  - rewrite checkAndPrepareWriting_elsewhere by lia.
    destruct (Z.leb_spec (mOriginalBufferSize b) (mUsedAdditionalBufferSize b)); [lia|].
    intros [= Hgranted <-].
    split; [unfold well_formed; auto|]. split; [reflexivity|]. split; [lia|].
    intros Hmax. destruct Hcap as [[? ?] ?].
    rewrite to_int_id in Hgranted by (unfold is_int, INT_MIN; lia).
    cases_cmp; (discriminate || lia).
  - rewrite checkAndPrepareWriting_elsewhere by lia.
    intros [= Hgranted <-].
    split; [unfold well_formed; auto|]. split; [reflexivity|]. split; [lia|].
    intros Hmax. destruct Hcap as [[? ?] ?].
    destruct (Z.leb_spec (mOriginalBufferSize b) pos).
    + rewrite to_int_id in Hgranted by (unfold is_int, INT_MIN; lia).
      cases_cmp; (discriminate || lia).
    + destruct (Z.ltb_spec pos 0); [discriminate|].
      rewrite to_int_id in Hgranted by (unfold is_int, INT_MIN; lia).
      cases_cmp; (discriminate || lia).
Qed.

End WellFormed.

Section Calls.

Variable c : Constants.
Hypothesis c_ok : constants_ok c.

(** A refused permission ends the call. *)
Lemma write_refused b data size pos b1 :
  1 <= size <= 4 ->
  checkAndPrepareWriting c b pos size = (false, b1) ->
  writeUintAndAdvancePosition c b data size pos = Some (mkOutcome false b pos []).
Proof.
  intros Hsize Hcheck. unfold writeUintAndAdvancePosition.
  rewrite Hcheck, (checkAndPrepareWriting_false _ _ _ _ _ Hcheck).
  cases_cmp; (reflexivity || lia).
Qed.

(** A granted permission is followed by stores that all fall inside the
    region: the call is defined, returns [true] and advances the position
    by the width. *)
Lemma write_granted b data size pos b1 :
  well_formed c b -> 1 <= size <= 4 -> pos + size <= INT_MAX ->
  checkAndPrepareWriting c b pos size = (true, b1) ->
  exists o, writeUintAndAdvancePosition c b data size pos = Some o /\
            returned o = true /\ pos_after o = pos + size /\
            same_layout (buffer_after o) b1.
Proof.
  intros Hwf Hsize Hmax Hcheck.
  destruct (checkAndPrepareWriting_granted c c_ok b pos size b1 Hwf Hsize Hcheck)
    as (Hwf1 & Horig & _ & Hrange).
  specialize (Hrange Hmax).
  destruct Hwf as ((Hlen & HorigMax) & _ & _).
  assert (0 <= mOriginalBufferSize b) as Horig0 by lia.
  unfold writeUintAndAdvancePosition, isInAdditionalBuffer.
  rewrite Hcheck, Horig.
  replace (negb ((1 <=? size) && (size <=? 4))) with false
    by (cases_cmp; (reflexivity || lia)).
  destruct (Z.leb_spec (mOriginalBufferSize b) pos) as [Hin|Hin].
  - rewrite to_int_id by (unfold is_int, INT_MIN; lia).
    destruct (encoder_defined (mAdditionalBuffer b1) data size
                (pos - mOriginalBufferSize b)) as [bytes Hbytes];
      try (unfold additionalSize in *; lia).
    rewrite Hbytes. eexists. split; [reflexivity|]. simpl.
    split; [reflexivity|]. split.
    + rewrite to_int_id by (unfold is_int, INT_MIN; lia). lia.
    + apply encoder_length in Hbytes. unfold same_layout. simpl. auto.
  - destruct Hwf1 as ((Hlen1 & _) & _ & _).
    destruct (encoder_defined (mOriginalBuffer b1) data size pos) as [bytes Hbytes];
      try lia.
    rewrite Hbytes. eexists. split; [reflexivity|]. simpl.
    split; [reflexivity|]. split; [reflexivity|].
    apply encoder_length in Hbytes. unfold same_layout. simpl. auto.
Qed.

(** Every call that returns leaves a well-formed object whose used size is
    at least the one before. *)
Lemma write_well_formed b data size pos o :
  well_formed c b ->
  writeUintAndAdvancePosition c b data size pos = Some o ->
  well_formed c (buffer_after o) /\
  mUsedAdditionalBufferSize b <= mUsedAdditionalBufferSize (buffer_after o).
Proof.
  intros Hwf. unfold writeUintAndAdvancePosition.
  destruct (negb ((1 <=? size) && (size <=? 4))) eqn:Hsize.
  { intros [= <-]. simpl. split; [assumption | lia]. }
  assert (1 <= size <= 4) as Hsize' by (cases_cmp; (discriminate || lia)).
  destruct (checkAndPrepareWriting c b pos size) as [[|] b1] eqn:Hcheck.
  2: { apply checkAndPrepareWriting_false in Hcheck as ->.
       intros [= <-]. simpl. split; [assumption | lia]. }
  destruct (checkAndPrepareWriting_granted c c_ok b pos size b1 Hwf Hsize' Hcheck)
    as (Hwf1 & _ & Hmono & _).
  destruct (isInAdditionalBuffer b1 pos);
    destruct (ByteArrayUtils.writeUintAndAdvancePosition _ _ _ _)
      as [[bytes pos2]|] eqn:Hbytes;
    try discriminate; intros [= <-]; simpl; (split; [|exact Hmono]);
    apply encoder_length in Hbytes;
    (apply same_layout_well_formed with b1; [|exact Hwf1]);
    unfold same_layout; simpl; auto.
Qed.

Lemma reachable_well_formed b : reachable c b -> well_formed c b.
Proof.
  induction 1 as [originalBuffer originalBufferSize Hvalid | b data size pos o _ IH Hcall].
  - apply construct_well_formed; assumption.
  - exact (proj1 (write_well_formed b data size pos o IH Hcall)).
Qed.

Lemma reachable_after b data size pos :
  reachable c b -> reachable c (after c b data size pos).
Proof.
  intros Hb. unfold after.
  destruct (writeUintAndAdvancePosition c b data size pos) as [o|] eqn:Hcall.
  - eapply reachable_write; eassumption.
  - exact Hb.
Qed.

(** On a reachable object the tail position is the plain sum. *)
Lemma reachable_tail b :
  reachable c b ->
  getTailPosition b = mOriginalBufferSize b + mUsedAdditionalBufferSize b.
Proof.
  intros Hb. apply reachable_well_formed in Hb as ((Hlen & Hmax) & ((? & ?) & ?) & Happ).
  destruct c_ok. unfold getTailPosition.
  apply to_int_id. unfold is_int, INT_MIN. destruct Happ; lia.
Qed.

End Calls.

(** ** The example objects *)

Lemma small_ok : constants_ok small.
Proof. constructor; unfold INT_MAX; simpl; lia. Qed.

Lemma fresh_reachable : reachable small fresh.
Proof. apply reachable_construct. split; [reflexivity | unfold INT_MAX; lia]. Qed.

Lemma appended_reachable : reachable small appended.
Proof. unfold appended. repeat apply reachable_after. exact fresh_reachable. Qed.

Lemma full_reachable : reachable small full.
Proof. unfold full. repeat apply reachable_after. exact fresh_reachable. Qed.

Lemma with_original_reachable : reachable small with_original.
Proof. apply reachable_construct. split; [reflexivity | unfold INT_MAX; lia]. Qed.

Example appended_bytes :
  appended = mkBuffer [] 0 [1; 2; 3; 4; 171; 205; 0; 0] 6.
Proof. reflexivity. Qed.

Example full_bytes :
  full = mkBuffer [] 0 [0; 0; 0; 1; 0; 0; 0; 2; 0; 0; 0; 3; 0; 0; 0; 4] 16.
Proof. reflexivity. Qed.

(** ** The permission policy *)

Section Policy.

Variable c : Constants.
Hypothesis c_ok : constants_ok c.

(** The refusal of the second branch of [checkAndPrepareWriting], on any
    object: a position of the additional region that the check does not take
    for an append, with an end that reaches the used size. *)
Lemma write_reaching_used_refused b data size pos :
  1 <= size <= 4 ->
  mOriginalBufferSize b <= pos -> pos <> mUsedAdditionalBufferSize b ->
  mUsedAdditionalBufferSize b <= pos + size -> is_int (pos + size) ->
  writeUintAndAdvancePosition c b data size pos = Some (mkOutcome false b pos []).
Proof.
  intros Hsize Hin Hne Hend Hint.
  apply write_refused with b; [assumption|].
  rewrite checkAndPrepareWriting_elsewhere by lia.
  rewrite to_int_id by assumption.
  cases_cmp; (reflexivity || lia).
Qed.

(** With a non-empty original region nothing was ever appended, and every
    write at or after the end of the original region is refused, the one at
    the tail position included. *)
Lemma write_after_original_refused b data size pos :
  reachable c b -> 0 < mOriginalBufferSize b ->
  1 <= size <= 4 -> mOriginalBufferSize b <= pos -> pos + size <= INT_MAX ->
  mUsedAdditionalBufferSize b = 0 /\
  writeUintAndAdvancePosition c b data size pos = Some (mkOutcome false b pos []).
Proof.
  intros Hb Horig Hsize Hin Hmax.
  apply (reachable_well_formed c c_ok) in Hb as (_ & _ & [Hzero|Hused]); [lia|].
  split; [assumption|].
  apply write_reaching_used_refused; try assumption; try lia.
  unfold is_int, INT_MIN. lia.
Qed.

(** Without an original region the append at the tail position works as
    the comments of the class describe it: it is granted as long as the
    storage, grown by one step if need be, holds the new bytes, and the tail
    position moves by the width. *)
Lemma append_without_original b data size :
  reachable c b -> mOriginalBufferSize b = 0 ->
  1 <= size <= 4 ->
  mUsedAdditionalBufferSize b + size <= additionalSize b \/
  additionalSize b + EXTEND_ADDITIONAL_BUFFER_SIZE_STEP c <= MAX_ADDITIONAL_BUFFER_SIZE c ->
  exists o,
    writeUintAndAdvancePosition c b data size (getTailPosition b) = Some o /\
    returned o = true /\ pos_after o = getTailPosition b + size /\
    getTailPosition (buffer_after o) = getTailPosition b + size.
Proof.
  intros Hb Hzero Hsize Hroom.
  pose proof (reachable_well_formed c c_ok b Hb) as Hwf.
  pose proof Hwf as (_ & ((Hused0 & Hused) & Hcap) & _).
  pose proof c_ok as [? ? ? ? ?].
  assert (getTailPosition b = mUsedAdditionalBufferSize b) as Htail
    by (rewrite (reachable_tail c c_ok b Hb); lia).
  rewrite Htail.
  assert (used_within_capacity c b) as Hwithin by (unfold used_within_capacity; lia).
  pose proof (checkAndPrepareWriting_append c c_ok b size Hwithin Hsize ltac:(lia))
    as Hcheck.
  assert (exists b1, checkAndPrepareWriting c b (mUsedAdditionalBufferSize b) size
                     = (true, b1) /\
                     mOriginalBufferSize b1 = 0 /\
                     mUsedAdditionalBufferSize b1 = mUsedAdditionalBufferSize b + size)
    as (b1 & Hgranted & Horig1 & Hused1).
  { rewrite Hcheck.
    destruct (Z.ltb_spec (additionalSize b) (mUsedAdditionalBufferSize b + size)).
    - destruct (Z.ltb_spec (MAX_ADDITIONAL_BUFFER_SIZE c)
                  (additionalSize b + EXTEND_ADDITIONAL_BUFFER_SIZE_STEP c)); [lia|].
      eexists. split; [reflexivity|]. simpl. auto.
    - eexists. split; [reflexivity|]. simpl. auto. }
  destruct (write_granted c c_ok b data size (mUsedAdditionalBufferSize b) b1
              Hwf Hsize ltac:(lia) Hgranted) as (o & Hcall & Hret & Hpos & Hlayout).
  exists o. repeat (split; [assumption|]).
  rewrite (proj1 (same_layout_tail _ _ Hlayout)).
  unfold getTailPosition. rewrite Horig1, Hused1.
  apply to_int_id. unfold is_int, INT_MIN. lia.
Qed.

End Policy.

(** C1 (the code departs from the claim). With an original region of 10
    bytes and nothing appended yet, the tail position is 10, and the append of
    the 4-byte value [0x01020304] at position 10 is refused, whatever the
    constants: the call returns [false] and leaves the object, hence the tail
    position 10, and the caller's position as they were. *)
Theorem append_after_original_refused c :
  getTailPosition (construct c (replicate 10 0) 10) = 10 /\
  writeUintAndAdvancePosition c (construct c (replicate 10 0) 10) 16909060 4 10
  = Some (mkOutcome false (construct c (replicate 10 0) 10) 10 []).
Proof. split; reflexivity. Qed.

(** C2. On every reachable object, a write of width [size] in [1, 4] that
    starts in the additional region and ends strictly before the tail position
    is defined and succeeds as an overwrite: it returns [true], advances the
    position by [size], and leaves the used size, the capacity and the tail
    position as they were. *)
Theorem overwrite_inside_committed_region c b data size pos :
  constants_ok c -> reachable c b ->
  1 <= size <= 4 ->
  mOriginalBufferSize b <= pos -> pos + size < getTailPosition b ->
  exists o,
    writeUintAndAdvancePosition c b data size pos = Some o /\
    returned o = true /\ pos_after o = pos + size /\
    mUsedAdditionalBufferSize (buffer_after o) = mUsedAdditionalBufferSize b /\
    additionalSize (buffer_after o) = additionalSize b /\
    getTailPosition (buffer_after o) = getTailPosition b.
Proof.
  intros c_ok Hb Hsize Hin Hend.
  rewrite (reachable_tail c c_ok b Hb) in Hend.
  pose proof (reachable_well_formed c c_ok b Hb) as Hwf.
  pose proof Hwf as ((Hlen & Hmax) & ((Hused0 & Hused) & Hcap) & Happ).
  pose proof c_ok as [? ? ? ? ?].
  assert (mOriginalBufferSize b = 0) as Hzero by (destruct Happ; lia).
  assert (checkAndPrepareWriting c b pos size = (true, b)) as Hcheck.
  { rewrite checkAndPrepareWriting_elsewhere by lia.
    rewrite to_int_id by (unfold is_int, INT_MIN; lia).
    cases_cmp; (reflexivity || lia). }
  destruct (write_granted c c_ok b data size pos b Hwf Hsize ltac:(lia) Hcheck)
    as (o & Hcall & Hret & Hpos & Hlayout).
  exists o. destruct (same_layout_tail _ _ Hlayout) as [Htail Hsize'].
  destruct Hlayout as (_ & _ & _ & Hu). auto 10.
Qed.

Lemma overwrite_inside_committed_region_witness :
  exists o,
    writeUintAndAdvancePosition small appended 4294967295 4 0 = Some o /\
    returned o = true /\ pos_after o = 0 + 4 /\
    mUsedAdditionalBufferSize (buffer_after o) = mUsedAdditionalBufferSize appended /\
    additionalSize (buffer_after o) = additionalSize appended /\
    getTailPosition (buffer_after o) = getTailPosition appended.
Proof.
  apply (overwrite_inside_committed_region small appended 4294967295 4 0).
  - exact small_ok.
  - exact appended_reachable.
  - lia.
  - vm_compute. discriminate.
  - vm_compute. reflexivity.
Defined.

(** C4. On an object whose original region is valid, a write of width [size]
    in [1, 4] at a position below [mOriginalBufferSize] is defined, and it
    succeeds exactly when [0 <= pos] and [pos + size <= mOriginalBufferSize].
    The original region is never appended to: no call, at any position,
    changes [mOriginalBufferSize] or the number of bytes of the original
    region. *)
Theorem original_region_write c b data size pos :
  original_valid b ->
  1 <= size <= 4 -> pos < mOriginalBufferSize b -> pos + size <= INT_MAX ->
  (exists o,
     writeUintAndAdvancePosition c b data size pos = Some o /\
     (returned o = true <-> 0 <= pos /\ pos + size <= mOriginalBufferSize b)) /\
  (forall data' size' pos' o',
     writeUintAndAdvancePosition c b data' size' pos' = Some o' ->
     getOriginalBufferSize (buffer_after o') = getOriginalBufferSize b /\
     Z.of_nat (length (mOriginalBuffer (buffer_after o'))) = getOriginalBufferSize b).
Proof.
  intros [Hlen Hmax] Hsize Hin Hsum. split.
  - unfold writeUintAndAdvancePosition.
    replace (negb ((1 <=? size) && (size <=? 4))) with false
      by (cases_cmp; (reflexivity || lia)).
    rewrite checkAndPrepareWriting_elsewhere by lia.
    unfold isInAdditionalBuffer.
    destruct (Z.leb_spec (mOriginalBufferSize b) pos); [lia|].
    destruct (Z.ltb_spec pos 0); simpl.
    { eexists. split; [reflexivity|]. simpl. split; [discriminate | lia]. }
    rewrite to_int_id by (unfold is_int, INT_MIN; lia).
    destruct (Z.ltb_spec (mOriginalBufferSize b) (pos + size)); simpl.
    { eexists. split; [reflexivity|]. simpl. split; [discriminate | lia]. }
    destruct (encoder_defined (mOriginalBuffer b) data size pos) as [bytes ->]; try lia.
    eexists. split; [reflexivity|]. simpl. split; [lia | reflexivity].
  - intros data' size' pos' o'. unfold writeUintAndAdvancePosition, getOriginalBufferSize.
    destruct (negb ((1 <=? size') && (size' <=? 4))).
    { intros [= <-]. auto. }
    destruct (checkAndPrepareWriting c b pos' size') as [[|] b1] eqn:Hcheck.
    2: { apply checkAndPrepareWriting_false in Hcheck as ->. intros [= <-]. auto. }
    apply checkAndPrepareWriting_frame in Hcheck as (Hbytes & Horig & _).
    destruct (isInAdditionalBuffer b1 pos');
      destruct (ByteArrayUtils.writeUintAndAdvancePosition _ _ _ _)
        as [[bytes pos2]|] eqn:Henc;
      try discriminate; intros [= <-]; simpl.
    + rewrite Hbytes. auto.
    + apply encoder_length in Henc. rewrite Henc, Hbytes. auto.
Qed.

Lemma original_region_write_witness :
  (exists o,
     writeUintAndAdvancePosition small with_original 4294967295 4 7 = Some o /\
     (returned o = true <-> 0 <= 7 /\ 7 + 4 <= mOriginalBufferSize with_original)) /\
  (forall data' size' pos' o',
     writeUintAndAdvancePosition small with_original data' size' pos' = Some o' ->
     getOriginalBufferSize (buffer_after o') = getOriginalBufferSize with_original /\
     Z.of_nat (length (mOriginalBuffer (buffer_after o')))
     = getOriginalBufferSize with_original).
Proof.
  apply (original_region_write small with_original 4294967295 4 7).
  - split; [reflexivity | vm_compute; discriminate].
  - lia.
  - vm_compute. reflexivity.
  - vm_compute. discriminate.
Defined.

(** C5. On every reachable object, a write of width [size] in [1, 4] at a
    position of the additional region other than the tail position is refused
    as soon as its end reaches the used size: an end exactly at
    [mUsedAdditionalBufferSize] is refused like an end beyond it (the test is
    [>=], not [>]). The refused call leaves the object and the position as
    they were. *)
Theorem write_reaching_tail_refused c b data size pos :
  constants_ok c -> reachable c b ->
  1 <= size <= 4 ->
  mOriginalBufferSize b <= pos -> pos <> getTailPosition b ->
  mUsedAdditionalBufferSize b <= pos + size -> pos + size <= INT_MAX ->
  writeUintAndAdvancePosition c b data size pos = Some (mkOutcome false b pos []).
Proof.
  intros c_ok Hb Hsize Hin Hne Hend Hmax.
  rewrite (reachable_tail c c_ok b Hb) in Hne.
  pose proof (reachable_well_formed c c_ok b Hb)
    as ((Hlen & _) & ((Hused0 & _) & _) & Happ).
  apply write_reaching_used_refused; try assumption.
  - destruct Happ; lia.
  - unfold is_int, INT_MIN. lia.
Qed.

Lemma write_reaching_tail_refused_witness :
  writeUintAndAdvancePosition small appended 4294967295 4 2
  = Some (mkOutcome false appended 2 []).
Proof.
  apply (write_reaching_tail_refused small appended 4294967295 4 2).
  - exact small_ok.
  - exact appended_reachable.
  - lia.
  - vm_compute. discriminate.
  - vm_compute. discriminate.
  - vm_compute. discriminate.
  - vm_compute. discriminate.
Defined.

(** C7. On every reachable object, for an append of width [size] in [1, 4]
    at the tail position:
    - when the append needs more storage and one more growth step would
      exceed [MAX_ADDITIONAL_BUFFER_SIZE], the call returns [false] and leaves
      the object (capacity and tail position included) as it was;
    - when the append would take the used size beyond
      [MAX_ADDITIONAL_BUFFER_SIZE], the call returns [false] in the same way;
    - when an append that needs more storage is granted, the capacity grown by
      one step does not exceed [MAX_ADDITIONAL_BUFFER_SIZE], and it is the new
      capacity. *)
Theorem append_respects_ceiling c b data size :
  constants_ok c -> reachable c b ->
  1 <= size <= 4 -> getTailPosition b + size <= INT_MAX ->
  (additionalSize b < mUsedAdditionalBufferSize b + size ->
   MAX_ADDITIONAL_BUFFER_SIZE c < additionalSize b + EXTEND_ADDITIONAL_BUFFER_SIZE_STEP c ->
   writeUintAndAdvancePosition c b data size (getTailPosition b)
   = Some (mkOutcome false b (getTailPosition b) [])) /\
  (MAX_ADDITIONAL_BUFFER_SIZE c < mUsedAdditionalBufferSize b + size ->
   writeUintAndAdvancePosition c b data size (getTailPosition b)
   = Some (mkOutcome false b (getTailPosition b) [])) /\
  (forall o,
     writeUintAndAdvancePosition c b data size (getTailPosition b) = Some o ->
     returned o = true ->
     additionalSize b < mUsedAdditionalBufferSize b + size ->
     additionalSize b + EXTEND_ADDITIONAL_BUFFER_SIZE_STEP c
       <= MAX_ADDITIONAL_BUFFER_SIZE c /\
     additionalSize (buffer_after o)
       = additionalSize b + EXTEND_ADDITIONAL_BUFFER_SIZE_STEP c).
Proof.
  intros c_ok Hb Hsize Hmax.
  pose proof (reachable_well_formed c c_ok b Hb) as Hwf.
  pose proof Hwf as ((Hlen & HorigMax) & ((Hused0 & Hused) & Hcap) & Happ).
  pose proof c_ok as [? ? ? ? ?].
  destruct (Z.eq_dec (mOriginalBufferSize b) 0) as [Hzero|Hpos].
  - (* no original region: the tail position is the used size *)
    assert (getTailPosition b = mUsedAdditionalBufferSize b) as Htail
      by (rewrite (reachable_tail c c_ok b Hb); lia).
    rewrite Htail in *.
    assert (used_within_capacity c b) as Hwithin by (unfold used_within_capacity; lia).
    pose proof (checkAndPrepareWriting_append c c_ok b size Hwithin Hsize ltac:(lia))
      as Hcheck.
    assert (additionalSize b < mUsedAdditionalBufferSize b + size ->
            MAX_ADDITIONAL_BUFFER_SIZE c
              < additionalSize b + EXTEND_ADDITIONAL_BUFFER_SIZE_STEP c ->
            writeUintAndAdvancePosition c b data size (mUsedAdditionalBufferSize b)
            = Some (mkOutcome false b (mUsedAdditionalBufferSize b) [])) as Hrefused.
    { intros Hneed Hceil. apply write_refused with b; [assumption|].
      rewrite Hcheck. cases_cmp; (reflexivity || lia). }
    split; [exact Hrefused|]. split; [intros Hbeyond; apply Hrefused; lia|].
    intros o Hcall Hret Hneed.
    destruct (Z.ltb_spec (MAX_ADDITIONAL_BUFFER_SIZE c)
                (additionalSize b + EXTEND_ADDITIONAL_BUFFER_SIZE_STEP c)) as [Hceil|Hroom].
    { rewrite (Hrefused Hneed Hceil) in Hcall. injection Hcall as <-. discriminate. }
    split; [assumption|].
    destruct (Z.ltb_spec (additionalSize b) (mUsedAdditionalBufferSize b + size)); [|lia].
    destruct (Z.ltb_spec (MAX_ADDITIONAL_BUFFER_SIZE c)
                (additionalSize b + EXTEND_ADDITIONAL_BUFFER_SIZE_STEP c)); [lia|].
    destruct (write_granted c c_ok b data size _ _ Hwf Hsize Hmax Hcheck)
      as (o' & Hcall' & _ & _ & Hlayout).
    rewrite Hcall in Hcall'. injection Hcall' as <-.
    rewrite (proj2 (same_layout_tail _ _ Hlayout)).
    unfold additionalSize in *. simpl. rewrite length_resize. lia.
  - (* a non-empty original region: nothing is ever appended *)
    rewrite (reachable_tail c c_ok b Hb) in *.
    destruct (write_after_original_refused c c_ok b data size
                (mOriginalBufferSize b + mUsedAdditionalBufferSize b) Hb)
      as [_ Hrefused]; try lia.
    split; [intros; exact Hrefused|]. split; [intros; exact Hrefused|].
    intros o Hcall Hret. rewrite Hrefused in Hcall. injection Hcall as <-. discriminate.
Qed.

Lemma append_respects_ceiling_witness :
  writeUintAndAdvancePosition small full 255 1 (getTailPosition full)
  = Some (mkOutcome false full (getTailPosition full) []).
Proof.
  refine (proj1 (proj2 (append_respects_ceiling small full 255 1 small_ok
                          full_reachable _ _)) _).
  - lia.
  - vm_compute. discriminate.
  - vm_compute. reflexivity.
Defined.

(** C8. The used size stays within the storage: on every reachable object,
    that is after a valid construction and after every call that followed it,
    [0 <= mUsedAdditionalBufferSize <= mAdditionalBuffer.size()]. Every call
    whose [pos + size] does not overflow returns, and no call lowers
    [mUsedAdditionalBufferSize]. *)
Theorem used_size_within_capacity c b :
  constants_ok c -> reachable c b ->
  0 <= mUsedAdditionalBufferSize b <= additionalSize b /\
  forall data size pos,
    (pos + size <= INT_MAX ->
     exists o, writeUintAndAdvancePosition c b data size pos = Some o) /\
    (forall o,
       writeUintAndAdvancePosition c b data size pos = Some o ->
       0 <= mUsedAdditionalBufferSize (buffer_after o) <= additionalSize (buffer_after o) /\
       mUsedAdditionalBufferSize b <= mUsedAdditionalBufferSize (buffer_after o)).
Proof.
  intros c_ok Hb.
  pose proof (reachable_well_formed c c_ok b Hb) as Hwf.
  split; [apply Hwf|]. intros data size pos. split.
  - intros Hmax.
    destruct (negb ((1 <=? size) && (size <=? 4))) eqn:Hsize.
    { unfold writeUintAndAdvancePosition. rewrite Hsize. eauto. }
    assert (1 <= size <= 4) as Hsize' by (cases_cmp; (discriminate || lia)).
    destruct (checkAndPrepareWriting c b pos size) as [[|] b1] eqn:Hcheck.
    + destruct (write_granted c c_ok b data size pos b1 Hwf Hsize' Hmax Hcheck)
        as (o & Hcall & _). eauto.
    + rewrite (write_refused c b data size pos b1 Hsize' Hcheck). eauto.
  - intros o Hcall.
    destruct (write_well_formed c c_ok b data size pos o Hwf Hcall) as [Hwf' Hmono].
    split; [apply Hwf' | exact Hmono].
Qed.

Lemma used_size_within_capacity_witness :
  0 <= mUsedAdditionalBufferSize appended <= additionalSize appended /\
  forall data size pos,
    (pos + size <= INT_MAX ->
     exists o, writeUintAndAdvancePosition small appended data size pos = Some o) /\
    (forall o,
       writeUintAndAdvancePosition small appended data size pos = Some o ->
       0 <= mUsedAdditionalBufferSize (buffer_after o) <= additionalSize (buffer_after o) /\
       mUsedAdditionalBufferSize appended <= mUsedAdditionalBufferSize (buffer_after o)).
Proof.
  apply (used_size_within_capacity small appended).
  - exact small_ok.
  - exact appended_reachable.
Defined.

(** ** The bytes a call stores *)

(** What the encoder leaves in the region: the [n] bytes of the value, most
    significant first, at [pos .. pos + n - 1], and every other byte as it
    was. *)
Lemma writeLoop_bytes n : forall buffer data pos buffer' pos',
  0 <= pos -> pos + Z.of_nat n <= INT_MAX ->
  ByteArrayUtils.writeLoop n buffer data pos = Some (buffer', pos') ->
  pos' = pos + Z.of_nat n /\
  (forall i, 0 <= i < Z.of_nat n ->
     buffer' !! Z.to_nat (pos + i)
     = Some (Z.land (Z.shiftr data ((Z.of_nat n - 1 - i) * 8)) 255)) /\
  (forall j : nat, ~ (pos <= Z.of_nat j < pos + Z.of_nat n) -> buffer' !! j = buffer !! j).
Proof.
  induction n as [|n IH]; intros buffer data pos buffer' pos' Hpos Hmax Hloop.
  - simpl in Hloop. injection Hloop as <- <-.
    split; [lia|]. split; [intros i Hi; lia | reflexivity].
  - simpl in Hloop. unfold ByteArrayUtils.store in Hloop.
    destruct ((0 <=? pos) && (pos <? Z.of_nat (length buffer))) eqn:Hin; [|discriminate].
    assert (0 <= pos < Z.of_nat (length buffer)) as Hrange by (cases_cmp; (discriminate || lia)).
    rewrite to_int_id in Hloop by (unfold is_int, INT_MIN; lia).
    apply IH in Hloop as (-> & Hwin & Hout); try lia.
    split; [lia|]. split.
    + intros i Hi. destruct (Z.eq_dec i 0) as [->|Hne].
      * rewrite Z.add_0_r, Hout by lia.
        rewrite list_lookup_insert_eq by lia. do 3 f_equal. lia.
      * replace (pos + i) with (pos + 1 + (i - 1)) by lia.
        rewrite Hwin by lia. do 3 f_equal. lia.
    + intros j Hj. rewrite Hout by lia. apply list_lookup_insert_ne. lia.
Qed.

(** Storing the same value at the same place a second time changes
    nothing. *)
Lemma writeLoop_twice n buffer data pos buffer' pos' :
  0 <= pos -> pos + Z.of_nat n <= INT_MAX ->
  ByteArrayUtils.writeLoop n buffer data pos = Some (buffer', pos') ->
  ByteArrayUtils.writeLoop n buffer' data pos = Some (buffer', pos').
Proof.
  intros Hpos Hmax Hloop.
  destruct (Nat.eq_dec n O) as [->|Hn].
  { simpl in *. congruence. }
  pose proof (writeLoop_length _ _ _ _ _ _ Hloop) as Hlen.
  destruct (writeLoop_bytes n buffer data pos buffer' pos' Hpos Hmax Hloop)
    as (-> & Hwin & Hout).
  assert (pos + Z.of_nat n <= Z.of_nat (length buffer')) as Hfit.
  { specialize (Hwin (Z.of_nat n - 1) ltac:(lia)).
    apply lookup_lt_Some in Hwin. lia. }
  destruct (writeLoop_defined n buffer' data pos) as [again Hagain]; try lia.
  rewrite Hagain. do 2 f_equal.
  destruct (writeLoop_bytes n buffer' data pos again _ Hpos Hmax Hagain)
    as (_ & Hwin' & Hout').
  apply list_eq. intros j.
  destruct (Z_le_dec pos (Z.of_nat j)) as [Hle|Hlt];
    [destruct (Z_lt_dec (Z.of_nat j) (pos + Z.of_nat n)) as [Hin|Hge]|].
  - specialize (Hwin (Z.of_nat j - pos) ltac:(lia)).
    specialize (Hwin' (Z.of_nat j - pos) ltac:(lia)).
    replace (Z.to_nat (pos + (Z.of_nat j - pos))) with j in * by lia. congruence.
  - apply Hout'. lia.
  - apply Hout'. lia.
Qed.

Section Stores.

Variable c : Constants.
Hypothesis c_ok : constants_ok c.

(** The three ways in which the permission is granted. *)
Lemma checkAndPrepareWriting_true_cases b pos size b1 :
  well_formed c b -> 1 <= size <= 4 -> pos + size <= INT_MAX ->
  checkAndPrepareWriting c b pos size = (true, b1) ->
  (pos = mUsedAdditionalBufferSize b /\ mOriginalBufferSize b = 0 /\
   mOriginalBuffer b1 = mOriginalBuffer b /\ mOriginalBufferSize b1 = 0 /\
   mUsedAdditionalBufferSize b1 = mUsedAdditionalBufferSize b + size /\
   ((mUsedAdditionalBufferSize b + size <= additionalSize b /\
     mAdditionalBuffer b1 = mAdditionalBuffer b) \/
    (additionalSize b < mUsedAdditionalBufferSize b + size /\
     additionalSize b + EXTEND_ADDITIONAL_BUFFER_SIZE_STEP c
       <= MAX_ADDITIONAL_BUFFER_SIZE c /\
     mAdditionalBuffer b1
     = resize (Z.to_nat (additionalSize b + EXTEND_ADDITIONAL_BUFFER_SIZE_STEP c)) 0
         (mAdditionalBuffer b)))) \/
  (b1 = b /\ mOriginalBufferSize b <= pos /\ pos <> mUsedAdditionalBufferSize b /\
   pos + size < mUsedAdditionalBufferSize b) \/
  (b1 = b /\ pos < mOriginalBufferSize b /\ 0 <= pos /\
   pos + size <= mOriginalBufferSize b).
Proof.
  intros ((Hlen & HorigMax) & ((Hused0 & Hused) & Hcap) & Happ) Hsize Hmax.
  pose proof c_ok as [? ? ? ? ?].
  assert (0 <= mOriginalBufferSize b) as Horig0 by lia.
  destruct (Z_le_dec (mOriginalBufferSize b) pos) as [Hin|Hout];
    [destruct (Z.eq_dec pos (mUsedAdditionalBufferSize b)) as [->|Hne]|].
  - rewrite checkAndPrepareWriting_append
      by (assumption || (unfold used_within_capacity; lia)).
    assert (mOriginalBufferSize b = 0) as Hzero by (destruct Happ; lia).
    destruct (Z.ltb_spec (additionalSize b) (mUsedAdditionalBufferSize b + size)).
    + destruct (Z.ltb_spec (MAX_ADDITIONAL_BUFFER_SIZE c)
                  (additionalSize b + EXTEND_ADDITIONAL_BUFFER_SIZE_STEP c));
        [discriminate|].
      intros [= <-]. left. simpl. auto 10.
    + intros [= <-]. left. simpl. auto 10.
  - rewrite checkAndPrepareWriting_elsewhere by lia.
    rewrite to_int_id by (unfold is_int, INT_MIN; lia).
    destruct (Z.leb_spec (mOriginalBufferSize b) pos); [|lia].
    destruct (Z.leb_spec (mUsedAdditionalBufferSize b) (pos + size)); [discriminate|].
    intros [= <-]. right. left. auto.
  - rewrite checkAndPrepareWriting_elsewhere by lia.
    destruct (Z.leb_spec (mOriginalBufferSize b) pos); [lia|].
    destruct (Z.ltb_spec pos 0); [discriminate|].
    rewrite to_int_id by (unfold is_int, INT_MIN; lia).
    destruct (Z.ltb_spec (mOriginalBufferSize b) (pos + size)); [discriminate|].
    intros [= <-]. right. right. split; [reflexivity | lia].
Qed.

(** A successful call, taken apart: the permission was granted, the encoder
    ran on the region the position belongs to, at the position made local to
    that region, and the position handed back is the one after the bytes. *)
Lemma write_true_inv b data size pos o :
  well_formed c b -> pos + size <= INT_MAX ->
  writeUintAndAdvancePosition c b data size pos = Some o ->
  returned o = true ->
  exists b1 bytes,
    1 <= size <= 4 /\
    checkAndPrepareWriting c b pos size = (true, b1) /\
    pos_after o = pos + size /\
    ((mOriginalBufferSize b <= pos /\
      ByteArrayUtils.writeLoop (Z.to_nat size) (mAdditionalBuffer b1) data
        (pos - mOriginalBufferSize b)
      = Some (bytes, pos - mOriginalBufferSize b + size) /\
      buffer_after o = set_mAdditionalBuffer b1 bytes) \/
     (pos < mOriginalBufferSize b /\
      ByteArrayUtils.writeLoop (Z.to_nat size) (mOriginalBuffer b1) data pos
      = Some (bytes, pos + size) /\
      buffer_after o = set_mOriginalBuffer b1 bytes)).
Proof.
  intros Hwf Hmax Hcall Hret.
  assert (1 <= size <= 4) as Hsize.
  { unfold writeUintAndAdvancePosition in Hcall.
    destruct (negb ((1 <=? size) && (size <=? 4))) eqn:E.
    - injection Hcall as <-. discriminate.
    - cases_cmp; (discriminate || lia). }
  destruct (checkAndPrepareWriting c b pos size) as [[|] b1] eqn:Hcheck.
  2: { rewrite (write_refused c b data size pos b1 Hsize Hcheck) in Hcall.
       injection Hcall as <-. discriminate. }
  destruct (checkAndPrepareWriting_granted c c_ok b pos size b1 Hwf Hsize Hcheck)
    as (Hwf1 & Horig & _ & Hrange).
  specialize (Hrange Hmax).
  destruct (write_granted c c_ok b data size pos b1 Hwf Hsize Hmax Hcheck)
    as (o' & Hcall' & _ & Hpos & _).
  assert (o' = o) as -> by congruence.
  destruct Hwf as ((Hlen & _) & _ & _). destruct Hwf1 as ((Hlen1 & _) & _ & _).
  assert (0 <= mOriginalBufferSize b) as Horig0 by lia.
  exists b1. unfold writeUintAndAdvancePosition, isInAdditionalBuffer in Hcall.
  rewrite Hcheck, Horig in Hcall.
  replace (negb ((1 <=? size) && (size <=? 4))) with false in Hcall
    by (cases_cmp; (reflexivity || lia)).
  unfold ByteArrayUtils.writeUintAndAdvancePosition in Hcall.
  destruct (Z.leb_spec (mOriginalBufferSize b) pos) as [Hin|Hin].
  - rewrite to_int_id in Hcall by (unfold is_int, INT_MIN; lia).
    destruct (ByteArrayUtils.writeLoop _ _ _ _) as [[bytes pos2]|] eqn:Hloop;
      [|discriminate].
    pose proof Hloop as Hbytes.
    apply writeLoop_bytes in Hbytes as (-> & _); [|lia|lia].
    injection Hcall as <-. exists bytes.
    split; [assumption|]. split; [reflexivity|]. split; [exact Hpos|]. simpl.
    left. rewrite Z2Nat.id by lia. auto.
  - destruct (ByteArrayUtils.writeLoop _ _ _ _) as [[bytes pos2]|] eqn:Hloop;
      [|discriminate].
    pose proof Hloop as Hbytes.
    apply writeLoop_bytes in Hbytes as (-> & _); [|lia|lia].
    injection Hcall as <-. exists bytes.
    split; [assumption|]. split; [reflexivity|]. split; [exact Hpos|]. simpl.
    right. rewrite Z2Nat.id by lia. auto.
Qed.

End Stores.

Section Outcomes.

Variable c : Constants.
Hypothesis c_ok : constants_ok c.

(** A call that returns [false] hands back the object it was given. *)
Lemma write_false_inv b data size pos o :
  writeUintAndAdvancePosition c b data size pos = Some o ->
  returned o = false -> buffer_after o = b.
Proof.
  unfold writeUintAndAdvancePosition.
  destruct (negb ((1 <=? size) && (size <=? 4))).
  { intros [= <-]. reflexivity. }
  destruct (checkAndPrepareWriting c b pos size) as [[|] b1] eqn:Hcheck.
  - destruct (isInAdditionalBuffer b1 pos);
      destruct (ByteArrayUtils.writeUintAndAdvancePosition _ _ _ _) as [[bytes pos2]|];
      try discriminate; intros [= <-]; discriminate.
  - apply checkAndPrepareWriting_false in Hcheck as ->. intros [= <-]. reflexivity.
Qed.

(** The sizes a call leaves behind are the ones the permission check
    decided. *)
Lemma write_layout b data size pos o :
  writeUintAndAdvancePosition c b data size pos = Some o ->
  (buffer_after o = b /\ returned o = false) \/
  (exists b1, 1 <= size <= 4 /\
              checkAndPrepareWriting c b pos size = (true, b1) /\
              returned o = true /\ same_layout (buffer_after o) b1).
Proof.
  intros Hcall. destruct (returned o) eqn:Hret.
  2: { left. split; [|reflexivity]. eauto using write_false_inv. }
  right. unfold writeUintAndAdvancePosition in Hcall.
  destruct (negb ((1 <=? size) && (size <=? 4))) eqn:Hsize.
  { injection Hcall as <-. discriminate. }
  assert (1 <= size <= 4) as Hsize' by (cases_cmp; (discriminate || lia)).
  destruct (checkAndPrepareWriting c b pos size) as [[|] b1] eqn:Hcheck.
  2: { injection Hcall as <-. discriminate. }
  exists b1. repeat (split; [assumption || reflexivity|]).
  destruct (isInAdditionalBuffer b1 pos);
    destruct (ByteArrayUtils.writeUintAndAdvancePosition _ _ _ _)
      as [[bytes pos2]|] eqn:Hbytes;
    try discriminate; injection Hcall as <-;
    apply encoder_length in Hbytes; unfold same_layout; simpl; auto.
Qed.

(** The storage changes size only when an append at the used size needs
    room, and then by one step. *)
Lemma write_capacity_step b data size pos o :
  well_formed c b ->
  writeUintAndAdvancePosition c b data size pos = Some o ->
  additionalSize (buffer_after o) = additionalSize b \/
  (additionalSize (buffer_after o)
   = additionalSize b + EXTEND_ADDITIONAL_BUFFER_SIZE_STEP c /\
   returned o = true /\ pos = mUsedAdditionalBufferSize b /\
   mOriginalBufferSize b = 0 /\
   additionalSize b < mUsedAdditionalBufferSize b + size).
Proof.
  intros Hwf Hcall.
  destruct (write_layout b data size pos o Hcall)
    as [[-> _] | (b1 & Hsize & Hcheck & Hret & Hlayout)]; [auto|].
  rewrite (proj2 (same_layout_tail _ _ Hlayout)).
  pose proof Hwf as ((Hlen & _) & Hwithin & Happ).
  pose proof Hwithin as ((Hused0 & Hused) & Hcap).
  pose proof c_ok as [? ? ? ? ?].
  destruct (Z.eq_dec pos (mUsedAdditionalBufferSize b)) as [->|Hne];
    [destruct (Z_le_dec (mOriginalBufferSize b) (mUsedAdditionalBufferSize b))
      as [Hle|Hgt]|].
  - rewrite checkAndPrepareWriting_append in Hcheck by assumption.
    assert (mOriginalBufferSize b = 0) as Hzero by (destruct Happ; lia).
    destruct (Z.ltb_spec (additionalSize b) (mUsedAdditionalBufferSize b + size)).
    + destruct (Z.ltb_spec (MAX_ADDITIONAL_BUFFER_SIZE c)
                  (additionalSize b + EXTEND_ADDITIONAL_BUFFER_SIZE_STEP c));
        [discriminate|].
      injection Hcheck as <-. right. unfold additionalSize in *. simpl.
      rewrite length_resize. repeat split; (assumption || lia).
    + injection Hcheck as <-. left. reflexivity.
  - rewrite checkAndPrepareWriting_elsewhere in Hcheck by lia.
    injection Hcheck as _ <-. left. reflexivity.
  - rewrite checkAndPrepareWriting_elsewhere in Hcheck by lia.
    injection Hcheck as _ <-. left. reflexivity.
Qed.

(** A write that ends strictly inside the used part is granted and changes no
    size. *)
Lemma write_inside_used b data size pos :
  well_formed c b -> 1 <= size <= 4 ->
  mOriginalBufferSize b <= pos ->
  pos + size < mOriginalBufferSize b + mUsedAdditionalBufferSize b ->
  exists o, writeUintAndAdvancePosition c b data size pos = Some o /\
            returned o = true /\ pos_after o = pos + size /\
            same_layout (buffer_after o) b.
Proof.
  intros Hwf Hsize Hin Hend.
  pose proof Hwf as ((Hlen & Hmax) & ((Hused0 & Hused) & Hcap) & Happ).
  pose proof c_ok as [? ? ? ? ?].
  assert (mOriginalBufferSize b = 0) as Hzero by (destruct Happ; lia).
  apply write_granted; try assumption; try lia.
  rewrite checkAndPrepareWriting_elsewhere by lia.
  rewrite to_int_id by (unfold is_int, INT_MIN; lia).
  cases_cmp; (reflexivity || lia).
Qed.

(** A successful write at the tail position is an append on an object
    without original region. *)
Lemma append_inv b data size o :
  reachable c b -> getTailPosition b + size <= INT_MAX ->
  writeUintAndAdvancePosition c b data size (getTailPosition b) = Some o ->
  returned o = true ->
  1 <= size <= 4 /\
  mOriginalBufferSize b = 0 /\ getTailPosition b = mUsedAdditionalBufferSize b /\
  mOriginalBufferSize (buffer_after o) = 0 /\
  mUsedAdditionalBufferSize (buffer_after o) = mUsedAdditionalBufferSize b + size /\
  pos_after o = getTailPosition b + size.
Proof.
  intros Hb Hmax Hcall Hret.
  pose proof (reachable_well_formed c c_ok b Hb) as Hwf.
  assert (pos_after o = getTailPosition b + size) as Hadvanced.
  { destruct (write_true_inv c c_ok b data size _ o Hwf Hmax Hcall Hret)
      as (_ & _ & _ & _ & Hpos & _). exact Hpos. }
  pose proof Hwf as ((Hlen & _) & ((Hused0 & Hused) & Hcap) & Happ).
  destruct (write_layout b data size _ o Hcall)
    as [[_ Hfalse] | (b1 & Hsize & Hcheck & _ & Hlayout)]; [congruence|].
  split; [assumption|].
  destruct (Z.eq_dec (mOriginalBufferSize b) 0) as [Hzero|Hpos].
  2: { destruct (write_after_original_refused c c_ok b data size (getTailPosition b) Hb)
         as [_ Hrefused]; try lia.
       - rewrite (reachable_tail c c_ok b Hb). lia.
       - rewrite Hrefused in Hcall. injection Hcall as <-. discriminate. }
  assert (getTailPosition b = mUsedAdditionalBufferSize b) as Htail
    by (rewrite (reachable_tail c c_ok b Hb); lia).
  rewrite Htail in *.
  destruct (checkAndPrepareWriting_true_cases c c_ok b _ size b1 Hwf Hsize Hmax Hcheck)
    as [(_ & _ & _ & Horig1 & Hused1 & _) | [(_ & _ & Hne & _) | (_ & Hlt & _)]];
    try lia.
  destruct Hlayout as (_ & -> & _ & ->). auto 10.
Qed.

End Outcomes.

(** ** Further properties of the write path *)

Lemma initial_used_up_reachable : reachable small initial_used_up.
Proof. unfold initial_used_up. repeat apply reachable_after. exact fresh_reachable. Qed.

(** X1. Every store of a successful call is bounds-checked: on a reachable
    object, a call that returns [true] has advanced the position by exactly
    [size], and the [size] bytes it wrote lie inside the original region, or
    inside the used part of the additional buffer as it is after the call. *)
Theorem successful_write_in_bounds c b data size pos o :
  constants_ok c -> reachable c b -> pos + size <= INT_MAX ->
  writeUintAndAdvancePosition c b data size pos = Some o ->
  returned o = true ->
  pos_after o = pos + size /\
  if isInAdditionalBuffer b pos
  then 0 <= pos - mOriginalBufferSize b /\
       pos - mOriginalBufferSize b + size <= mUsedAdditionalBufferSize (buffer_after o) /\
       mUsedAdditionalBufferSize (buffer_after o) <= additionalSize (buffer_after o)
  else 0 <= pos /\
       pos + size <= Z.of_nat (length (mOriginalBuffer (buffer_after o))) /\
       Z.of_nat (length (mOriginalBuffer (buffer_after o))) = mOriginalBufferSize b.
Proof.
  intros c_ok Hb Hmax Hcall Hret.
  pose proof (reachable_well_formed c c_ok b Hb) as Hwf.
  destruct (write_well_formed c c_ok b data size pos o Hwf Hcall)
    as (((Hlen' & _) & ((_ & Hused') & _) & _) & _).
  destruct (write_true_inv c c_ok b data size pos o Hwf Hmax Hcall Hret)
    as (b1 & bytes & Hsize & Hcheck & Hpos & Hstore).
  split; [assumption|].
  destruct Hwf as ((Hlen & _) & ((Hused0 & _) & _) & _).
  destruct (checkAndPrepareWriting_true_cases c c_ok b pos size b1
              ltac:(eauto using reachable_well_formed) Hsize Hmax Hcheck)
    as [(-> & Hzero & _ & Horig1 & Hused1 & _) | [(-> & Hin & _ & Hend) | (-> & Hlt & H0 & Hend)]];
    unfold isInAdditionalBuffer.
  - destruct Hstore as [(_ & _ & Hafter) | (Hlt & _)]; [|lia].
    rewrite Hafter in *. simpl in *.
    destruct (Z.leb_spec (mOriginalBufferSize b) (mUsedAdditionalBufferSize b)); lia.
  - destruct Hstore as [(_ & _ & Hafter) | (Hlt & _)]; [|lia].
    rewrite Hafter in *. simpl in *.
    destruct (Z.leb_spec (mOriginalBufferSize b) pos); lia.
  - destruct Hstore as [(Hin & _) | (_ & _ & Hafter)]; [lia|].
    rewrite Hafter in *. simpl in *.
    destruct (Z.leb_spec (mOriginalBufferSize b) pos); lia.
Qed.

Lemma successful_write_in_bounds_witness :
  pos_after (mkOutcome true (after small initial_used_up 43981 2 8) 10 []) = 8 + 2 /\
  if isInAdditionalBuffer initial_used_up 8
  then 0 <= 8 - mOriginalBufferSize initial_used_up /\
       8 - mOriginalBufferSize initial_used_up + 2
       <= mUsedAdditionalBufferSize (after small initial_used_up 43981 2 8) /\
       mUsedAdditionalBufferSize (after small initial_used_up 43981 2 8)
       <= additionalSize (after small initial_used_up 43981 2 8)
  else 0 <= 8 /\
       8 + 2 <= Z.of_nat (length (mOriginalBuffer (after small initial_used_up 43981 2 8))) /\
       Z.of_nat (length (mOriginalBuffer (after small initial_used_up 43981 2 8)))
       = mOriginalBufferSize initial_used_up.
Proof.
  apply (successful_write_in_bounds small initial_used_up 43981 2 8
           (mkOutcome true (after small initial_used_up 43981 2 8) 10 [])).
  - exact small_ok.
  - exact initial_used_up_reachable.
  - vm_compute. discriminate.
  - reflexivity.
  - reflexivity.
Defined.

(** X2. What was written can be read back the way the class asks readers to
    do it: after a successful call on a reachable object, the region
    [getBuffer] returns for [isInAdditionalBuffer pos], indexed by the
    position (less [getOriginalBufferSize] in the additional buffer), holds
    the [size] low bytes of [data], most significant first. *)
Theorem written_bytes_readable c b data size pos o :
  constants_ok c -> reachable c b -> pos + size <= INT_MAX ->
  writeUintAndAdvancePosition c b data size pos = Some o ->
  returned o = true ->
  forall i, 0 <= i < size ->
    getBuffer (buffer_after o) (isInAdditionalBuffer (buffer_after o) pos)
      !! Z.to_nat ((if isInAdditionalBuffer (buffer_after o) pos
                    then pos - getOriginalBufferSize (buffer_after o)
                    else pos) + i)
    = Some (Z.land (Z.shiftr data ((size - 1 - i) * 8)) 255).
Proof.
  intros c_ok Hb Hmax Hcall Hret i Hi.
  pose proof (reachable_well_formed c c_ok b Hb) as Hwf.
  destruct (write_true_inv c c_ok b data size pos o Hwf Hmax Hcall Hret)
    as (b1 & bytes & Hsize & Hcheck & _ & Hstore).
  destruct (checkAndPrepareWriting_granted c c_ok b pos size b1 Hwf Hsize Hcheck)
    as (_ & Horig & _).
  pose proof Hwf as ((Hlen & _) & ((Hused0 & _) & _) & _).
  unfold getBuffer, isInAdditionalBuffer, getOriginalBufferSize.
  destruct Hstore as [(Hin & Hloop & ->) | (Hlt & Hloop & ->)]; simpl; rewrite Horig.
  - destruct (Z.leb_spec (mOriginalBufferSize b) pos); [|lia].
    apply writeLoop_bytes in Hloop as (_ & Hwin & _); try lia.
    rewrite Hwin by lia. rewrite Z2Nat.id by lia. reflexivity.
  - destruct (Z.leb_spec (mOriginalBufferSize b) pos); [lia|].
    assert (0 <= pos).
    { destruct (checkAndPrepareWriting_true_cases c c_ok b pos size b1
                  Hwf Hsize Hmax Hcheck)
        as [(-> & Hzero & _) | [(_ & Hin & _) | (_ & _ & H0 & _)]]; lia. }
    apply writeLoop_bytes in Hloop as (_ & Hwin & _); try lia.
    rewrite Hwin by lia. rewrite Z2Nat.id by lia. reflexivity.
Qed.

Lemma written_bytes_readable_witness :
  getBuffer (after small initial_used_up 43981 2 8)
    (isInAdditionalBuffer (after small initial_used_up 43981 2 8) 8)
    !! Z.to_nat ((if isInAdditionalBuffer (after small initial_used_up 43981 2 8) 8
                  then 8 - getOriginalBufferSize (after small initial_used_up 43981 2 8)
                  else 8) + 0)
  = Some (Z.land (Z.shiftr 43981 ((2 - 1 - 0) * 8)) 255) /\
  getBuffer (after small initial_used_up 43981 2 8)
    (isInAdditionalBuffer (after small initial_used_up 43981 2 8) 8)
    !! Z.to_nat ((if isInAdditionalBuffer (after small initial_used_up 43981 2 8) 8
                  then 8 - getOriginalBufferSize (after small initial_used_up 43981 2 8)
                  else 8) + 1)
  = Some (Z.land (Z.shiftr 43981 ((2 - 1 - 1) * 8)) 255).
Proof.
  split;
    apply (written_bytes_readable small initial_used_up 43981 2 8
             (mkOutcome true (after small initial_used_up 43981 2 8) 10 []));
    first [exact small_ok | exact initial_used_up_reachable | reflexivity
          | (vm_compute; discriminate) | lia].
Defined.

(** X3. A successful call changes nothing but the bytes it writes, also when
    it extends the storage: in the region the position belongs to, every byte
    that existed before the call and lies outside
    [local .. local + size - 1] keeps its value, and every byte that the
    extension added is [0] unless it was written. *)
Theorem write_changes_only_its_bytes c b data size pos o :
  constants_ok c -> reachable c b -> pos + size <= INT_MAX ->
  writeUintAndAdvancePosition c b data size pos = Some o ->
  returned o = true ->
  forall j : nat,
    ~ ((if isInAdditionalBuffer b pos then pos - mOriginalBufferSize b else pos)
       <= Z.of_nat j
       < (if isInAdditionalBuffer b pos then pos - mOriginalBufferSize b else pos) + size) ->
    ((j < length (getBuffer b (isInAdditionalBuffer b pos)))%nat ->
     getBuffer (buffer_after o) (isInAdditionalBuffer b pos) !! j
     = getBuffer b (isInAdditionalBuffer b pos) !! j) /\
    ((length (getBuffer b (isInAdditionalBuffer b pos)) <= j
      < length (getBuffer (buffer_after o) (isInAdditionalBuffer b pos)))%nat ->
     getBuffer (buffer_after o) (isInAdditionalBuffer b pos) !! j = Some 0).
Proof.
  intros c_ok Hb Hmax Hcall Hret j.
  pose proof (reachable_well_formed c c_ok b Hb) as Hwf.
  destruct (write_true_inv c c_ok b data size pos o Hwf Hmax Hcall Hret)
    as (b1 & bytes & Hsize & Hcheck & _ & Hstore).
  pose proof c_ok as [? ? ? ? ?].
  pose proof Hwf as ((Hlen & _) & ((Hused0 & Hused) & Hcap) & _).
  unfold getBuffer, isInAdditionalBuffer.
  destruct (checkAndPrepareWriting_true_cases c c_ok b pos size b1 Hwf Hsize Hmax Hcheck)
    as [(-> & Hzero & _ & _ & _ & Hgrow) | [(-> & Hin & _ & Hend) | (-> & Hlt & H0 & Hend)]].
  - destruct Hstore as [(_ & Hloop & ->) | (Hlt & _)]; [|lia].
    destruct (Z.leb_spec (mOriginalBufferSize b) (mUsedAdditionalBufferSize b)); [|lia].
    intros Hout. simpl.
    pose proof (writeLoop_length _ _ _ _ _ _ Hloop) as Hbytes.
    apply writeLoop_bytes in Hloop as (_ & _ & Hframe); try lia.
    rewrite Hframe, Hbytes by lia.
    destruct Hgrow as [(_ & Hsame) | (_ & _ & Hresized)].
    + rewrite Hsame. split; [reflexivity | lia].
    + rewrite Hresized, length_resize. split.
      * intros Hj. apply lookup_resize; [|assumption]. unfold additionalSize in *. lia.
      * intros Hj. apply lookup_resize_new; lia.
  - destruct Hstore as [(_ & Hloop & ->) | (Hlt & _)]; [|lia].
    destruct (Z.leb_spec (mOriginalBufferSize b) pos); [|lia].
    intros Hout. simpl.
    pose proof (writeLoop_length _ _ _ _ _ _ Hloop) as Hbytes.
    apply writeLoop_bytes in Hloop as (_ & _ & Hframe); try lia.
    rewrite Hframe, Hbytes by lia. split; [reflexivity | lia].
  - destruct Hstore as [(Hin & _) | (_ & Hloop & ->)]; [lia|].
    destruct (Z.leb_spec (mOriginalBufferSize b) pos); [lia|].
    intros Hout. simpl.
    pose proof (writeLoop_length _ _ _ _ _ _ Hloop) as Hbytes.
    apply writeLoop_bytes in Hloop as (_ & _ & Hframe); try lia.
    rewrite Hframe, Hbytes by lia. split; [reflexivity | lia].
Qed.

Lemma write_changes_only_its_bytes_witness :
  getBuffer (after small initial_used_up 43981 2 8)
    (isInAdditionalBuffer initial_used_up 8) !! 3%nat
  = getBuffer initial_used_up (isInAdditionalBuffer initial_used_up 8) !! 3%nat /\
  getBuffer (after small initial_used_up 43981 2 8)
    (isInAdditionalBuffer initial_used_up 8) !! 10%nat
  = Some 0.
Proof.
  split.
  - refine (proj1 (write_changes_only_its_bytes small initial_used_up 43981 2 8
                     (mkOutcome true (after small initial_used_up 43981 2 8) 10 [])
                     small_ok initial_used_up_reachable _ eq_refl eq_refl 3%nat _) _).
    + vm_compute. discriminate.
    + vm_compute. intros [H _]. apply H. reflexivity.
    + vm_compute. lia.
  - refine (proj2 (write_changes_only_its_bytes small initial_used_up 43981 2 8
                     (mkOutcome true (after small initial_used_up 43981 2 8) 10 [])
                     small_ok initial_used_up_reachable _ eq_refl eq_refl 10%nat _) _).
    + vm_compute. discriminate.
    + vm_compute. intros [_ H]. discriminate H.
    + vm_compute. lia.
Defined.

Example extended_bytes :
  after small initial_used_up 43981 2 8
  = mkBuffer [] 0 [1; 2; 3; 4; 5; 6; 7; 8; 171; 205; 0; 0] 10.
Proof. reflexivity. Qed.

(** X4. Repeating a call changes nothing: on a reachable object, the same
    call (same value, width and position) made a second time leaves the object
    exactly as the first call left it. A repeated overwrite stores the same
    bytes again; a repeated append is refused, because its position is no
    longer the used size. *)
Theorem repeated_write_changes_nothing c b data size pos :
  constants_ok c -> reachable c b -> pos + size <= INT_MAX ->
  after c (after c b data size pos) data size pos = after c b data size pos.
Proof.
  intros c_ok Hb Hmax.
  pose proof (reachable_well_formed c c_ok b Hb) as Hwf.
  assert (forall b', after c b data size pos = b' ->
                     after c b' data size pos = b') as Hagain; [|auto].
  unfold after at 1.
  destruct (writeUintAndAdvancePosition c b data size pos) as [o|] eqn:Hcall.
  2: { intros b' <-. unfold after. rewrite Hcall. reflexivity. }
  destruct (returned o) eqn:Hret.
  2: { rewrite (write_false_inv c b data size pos o Hcall Hret).
       intros b' <-. unfold after. rewrite Hcall.
       apply (write_false_inv c b data size pos o Hcall Hret). }
  destruct (write_true_inv c c_ok b data size pos o Hwf Hmax Hcall Hret)
    as (b1 & bytes & Hsize & Hcheck & _ & Hstore).
  pose proof c_ok as [? ? ? ? ?].
  pose proof Hwf as ((Hlen & _) & ((Hused0 & Hused) & Hcap) & _).
  assert (negb ((1 <=? size) && (size <=? 4)) = false) as Hvalid
    by (cases_cmp; (reflexivity || lia)).
  intros b' <-.
  destruct (checkAndPrepareWriting_true_cases c c_ok b pos size b1 Hwf Hsize Hmax Hcheck)
    as [(-> & Hzero & _ & Horig1 & Hused1 & _) | [(-> & Hin & Hne & Hend) | (-> & Hlt & H0 & Hend)]].
  - (* an append: the second call is refused *)
    destruct Hstore as [(_ & _ & ->) | (Hlt & _)]; [|lia].
    unfold after.
    rewrite write_reaching_used_refused; simpl; try lia; [reflexivity|].
    unfold is_int, INT_MIN. lia.
  - (* an overwrite: the same bytes are stored again *)
    destruct Hstore as [(_ & Hloop & ->) | (Hlt & _)]; [|lia].
    apply writeLoop_twice in Hloop; try lia.
    unfold after, writeUintAndAdvancePosition.
    rewrite Hvalid, checkAndPrepareWriting_elsewhere by (simpl; lia).
    unfold isInAdditionalBuffer, ByteArrayUtils.writeUintAndAdvancePosition. simpl.
    rewrite !(to_int_id) by (unfold is_int, INT_MIN; lia).
    destruct (Z.leb_spec (mOriginalBufferSize b) pos); [|lia].
    destruct (Z.leb_spec (mUsedAdditionalBufferSize b) (pos + size)); [lia|].
    simpl. rewrite Hloop. reflexivity.
  - (* a write into the original region: the same bytes are stored again *)
    destruct Hstore as [(Hin & _) | (_ & Hloop & ->)]; [lia|].
    apply writeLoop_twice in Hloop; try lia.
    unfold after, writeUintAndAdvancePosition.
    rewrite Hvalid, checkAndPrepareWriting_elsewhere by (simpl; lia).
    unfold isInAdditionalBuffer, ByteArrayUtils.writeUintAndAdvancePosition. simpl.
    rewrite !(to_int_id) by (unfold is_int, INT_MIN; lia).
    destruct (Z.leb_spec (mOriginalBufferSize b) pos); [lia|].
    destruct (Z.ltb_spec pos 0); [lia|].
    destruct (Z.ltb_spec (mOriginalBufferSize b) (pos + size)); [lia|].
    simpl. rewrite Hloop. reflexivity.
Qed.

Lemma repeated_write_changes_nothing_witness :
  after small (after small appended 4294967295 4 0) 4294967295 4 0
  = after small appended 4294967295 4 0.
Proof.
  apply (repeated_write_changes_nothing small appended 4294967295 4 0).
  - exact small_ok.
  - exact appended_reachable.
  - vm_compute. discriminate.
Defined.

(** X5. The storage of the additional buffer grows in whole steps and never
    beyond the maximum: on every reachable object its size is
    [INITIAL_ADDITIONAL_BUFFER_SIZE] plus a number of
    [EXTEND_ADDITIONAL_BUFFER_SIZE_STEP]s and at most
    [MAX_ADDITIONAL_BUFFER_SIZE]; a call either keeps the size, or is a
    successful append at the tail position that adds exactly one step. *)
Theorem capacity_grows_in_steps c b :
  constants_ok c -> reachable c b ->
  (exists n : nat,
     additionalSize b
     = INITIAL_ADDITIONAL_BUFFER_SIZE c
       + Z.of_nat n * EXTEND_ADDITIONAL_BUFFER_SIZE_STEP c) /\
  additionalSize b <= MAX_ADDITIONAL_BUFFER_SIZE c /\
  forall data size pos o,
    writeUintAndAdvancePosition c b data size pos = Some o ->
    additionalSize (buffer_after o) = additionalSize b \/
    (additionalSize (buffer_after o)
     = additionalSize b + EXTEND_ADDITIONAL_BUFFER_SIZE_STEP c /\
     returned o = true /\ pos = getTailPosition b).
Proof.
  intros c_ok Hb. split; [|split].
  - induction Hb as [originalBuffer originalBufferSize Hvalid | b data size pos o Hb IH Hcall].
    + exists O. unfold additionalSize. simpl.
      rewrite length_replicate, Z2Nat.id by (destruct c_ok; assumption). lia.
    + destruct IH as [n Hn].
      destruct (write_capacity_step c c_ok b data size pos o
                  (reachable_well_formed c c_ok b Hb) Hcall) as [-> | (-> & _)].
      * exists n. exact Hn.
      * exists (S n). lia.
  - apply (reachable_well_formed c c_ok b Hb).
  - intros data size pos o Hcall.
    destruct (write_capacity_step c c_ok b data size pos o
                (reachable_well_formed c c_ok b Hb) Hcall)
      as [Hsame | (Hstep & Hret & -> & Hzero & _)]; [left; assumption|].
    right. rewrite (reachable_tail c c_ok b Hb). repeat split; (assumption || lia).
Qed.

Lemma capacity_grows_in_steps_witness :
  (exists n : nat,
     additionalSize initial_used_up
     = INITIAL_ADDITIONAL_BUFFER_SIZE small
       + Z.of_nat n * EXTEND_ADDITIONAL_BUFFER_SIZE_STEP small) /\
  additionalSize initial_used_up <= MAX_ADDITIONAL_BUFFER_SIZE small /\
  forall data size pos o,
    writeUintAndAdvancePosition small initial_used_up data size pos = Some o ->
    additionalSize (buffer_after o) = additionalSize initial_used_up \/
    (additionalSize (buffer_after o)
     = additionalSize initial_used_up + EXTEND_ADDITIONAL_BUFFER_SIZE_STEP small /\
     returned o = true /\ pos = getTailPosition initial_used_up).
Proof.
  apply (capacity_grows_in_steps small initial_used_up).
  - exact small_ok.
  - exact initial_used_up_reachable.
Defined.

(** X6. The value appended last cannot be rewritten in place: on a reachable
    object, after a successful write at the tail position, a write of the same
    width at that same position is refused, whatever the value, and leaves the
    object as the append left it. *)
Theorem last_append_cannot_be_rewritten c b data data' size o :
  constants_ok c -> reachable c b -> getTailPosition b + size <= INT_MAX ->
  writeUintAndAdvancePosition c b data size (getTailPosition b) = Some o ->
  returned o = true ->
  writeUintAndAdvancePosition c (buffer_after o) data' size (getTailPosition b)
  = Some (mkOutcome false (buffer_after o) (getTailPosition b) []).
Proof.
  intros c_ok Hb Hmax Hcall Hret.
  destruct (append_inv c c_ok b data size o Hb Hmax Hcall Hret)
    as (Hsize & Hzero & Htail & Horig' & Hused' & _).
  pose proof (reachable_well_formed c c_ok b Hb) as (_ & ((Hused0 & _) & _) & _).
  apply write_reaching_used_refused; try lia.
  unfold is_int, INT_MIN. lia.
Qed.

Lemma last_append_cannot_be_rewritten_witness :
  writeUintAndAdvancePosition small
    (buffer_after (mkOutcome true (after small initial_used_up 43981 2 8) 10 []))
    65535 2 (getTailPosition initial_used_up)
  = Some (mkOutcome false
            (buffer_after (mkOutcome true (after small initial_used_up 43981 2 8) 10 []))
            (getTailPosition initial_used_up) []).
Proof.
  apply (last_append_cannot_be_rewritten small initial_used_up 43981 65535 2
           (mkOutcome true (after small initial_used_up 43981 2 8) 10 [])).
  - exact small_ok.
  - exact initial_used_up_reachable.
  - vm_compute. discriminate.
  - reflexivity.
  - reflexivity.
Defined.

(** X7. An appended value can be rewritten once something was appended after
    it: on a reachable object, after two successful appends, the second at the
    position the first handed back, a write of the first width at the first
    position succeeds, advances the position by that width and leaves the
    tail position where the second append put it. *)
Theorem append_rewritable_after_next_append c b data1 size1 o1 data2 size2 o2 data' :
  constants_ok c -> reachable c b ->
  getTailPosition b + size1 + size2 <= INT_MAX ->
  writeUintAndAdvancePosition c b data1 size1 (getTailPosition b) = Some o1 ->
  returned o1 = true ->
  writeUintAndAdvancePosition c (buffer_after o1) data2 size2 (pos_after o1) = Some o2 ->
  returned o2 = true ->
  exists o3,
    writeUintAndAdvancePosition c (buffer_after o2) data' size1 (getTailPosition b)
    = Some o3 /\
    returned o3 = true /\ pos_after o3 = getTailPosition b + size1 /\
    getTailPosition (buffer_after o3) = getTailPosition (buffer_after o2).
Proof.
  intros c_ok Hb Hmax Hcall1 Hret1 Hcall2 Hret2.
  pose proof c_ok as [? ? ? ? ?].
  assert (1 <= size1 <= 4) as Hsize1.
  { destruct (write_layout c b data1 size1 _ o1 Hcall1) as [[_ ?] | (_ & ? & _)];
      [congruence | assumption]. }
  assert (1 <= size2 <= 4) as Hsize2.
  { destruct (write_layout c _ data2 size2 _ o2 Hcall2) as [[_ ?] | (_ & ? & _)];
      [congruence | assumption]. }
  pose proof (reachable_write c b data1 size1 _ o1 Hb Hcall1) as Hb1.
  pose proof (reachable_write c _ data2 size2 _ o2 Hb1 Hcall2) as Hb2.
  pose proof (reachable_well_formed c c_ok b Hb)
    as (_ & ((Hused0 & Hused) & Hcap) & _).
  destruct (append_inv c c_ok b data1 size1 o1 Hb ltac:(lia) Hcall1 Hret1)
    as (_ & Hzero & Htail0 & Horig1 & Hused1' & Hpos1).
  assert (pos_after o1 = getTailPosition (buffer_after o1)) as Hnext
    by (rewrite (reachable_tail c c_ok _ Hb1); lia).
  rewrite Hnext in Hcall2.
  destruct (append_inv c c_ok _ data2 size2 o2 Hb1 ltac:(lia) Hcall2 Hret2)
    as (_ & _ & _ & Horig2 & Hused2' & _).
  destruct (write_inside_used c c_ok (buffer_after o2) data' size1 (getTailPosition b))
    as (o3 & Hcall3 & Hret3 & Hpos3 & Hlayout);
    try lia; [exact (reachable_well_formed c c_ok _ Hb2)|].
  exists o3. repeat (split; [assumption|]).
  exact (proj1 (same_layout_tail _ _ Hlayout)).
Qed.

Lemma append_rewritable_after_next_append_witness :
  exists o3,
    writeUintAndAdvancePosition small
      (buffer_after (mkOutcome true appended 6 [])) 4294967295 4 (getTailPosition fresh)
    = Some o3 /\
    returned o3 = true /\ pos_after o3 = getTailPosition fresh + 4 /\
    getTailPosition (buffer_after o3)
    = getTailPosition (buffer_after (mkOutcome true appended 6 [])).
Proof.
  apply (append_rewritable_after_next_append small fresh 16909060 4
           (mkOutcome true (after small fresh 16909060 4 0) 4 [])
           43981 2 (mkOutcome true appended 6 []) 4294967295).
  - exact small_ok.
  - exact fresh_reachable.
  - vm_compute. discriminate.
  - reflexivity.
  - reflexivity.
  - reflexivity.
  - reflexivity.
Defined.

(** X8. Appending to an object without original region: on a reachable
    object with [mOriginalBufferSize = 0], a write of a width in [1, 4] at the
    tail position always returns, and it is granted exactly when the new bytes
    fit the storage or the storage can be extended by one step; once granted,
    the position and the tail position have both moved by the width. *)
Theorem append_without_original_granted_iff c b data size :
  constants_ok c -> reachable c b ->
  mOriginalBufferSize b = 0 -> 1 <= size <= 4 ->
  exists o,
    writeUintAndAdvancePosition c b data size (getTailPosition b) = Some o /\
    (returned o = true <->
     mUsedAdditionalBufferSize b + size <= additionalSize b \/
     additionalSize b + EXTEND_ADDITIONAL_BUFFER_SIZE_STEP c
       <= MAX_ADDITIONAL_BUFFER_SIZE c) /\
    (returned o = true ->
     pos_after o = getTailPosition b + size /\
     getTailPosition (buffer_after o) = getTailPosition b + size).
Proof.
  intros c_ok Hb Hzero Hsize.
  destruct (Z_le_dec (mUsedAdditionalBufferSize b + size) (additionalSize b))
    as [Hfits|Hneed];
    [|destruct (Z_le_dec (additionalSize b + EXTEND_ADDITIONAL_BUFFER_SIZE_STEP c)
                 (MAX_ADDITIONAL_BUFFER_SIZE c)) as [Hroom|Hceil]].
  - destruct (append_without_original c c_ok b data size Hb Hzero Hsize ltac:(auto))
      as (o & Hcall & Hret & Hpos & Htail').
    exists o. split; [assumption|]. split; [split; auto | auto].
  - destruct (append_without_original c c_ok b data size Hb Hzero Hsize ltac:(auto))
      as (o & Hcall & Hret & Hpos & Htail').
    exists o. split; [assumption|]. split; [split; auto | auto].
  - pose proof (reachable_well_formed c c_ok b Hb) as (_ & Hwithin & _).
    pose proof Hwithin as ((Hused0 & _) & _).
    assert (getTailPosition b = mUsedAdditionalBufferSize b) as Htail
      by (rewrite (reachable_tail c c_ok b Hb); lia).
    rewrite Htail.
    exists (mkOutcome false b (mUsedAdditionalBufferSize b) []).
    split.
    + apply write_refused with b; [assumption|].
      rewrite checkAndPrepareWriting_append by (assumption || lia).
      cases_cmp; (reflexivity || lia).
    + simpl. split; [split; [discriminate | lia] | discriminate].
Qed.

Lemma append_without_original_granted_iff_witness :
  exists o,
    writeUintAndAdvancePosition small full 255 1 (getTailPosition full) = Some o /\
    (returned o = true <->
     mUsedAdditionalBufferSize full + 1 <= additionalSize full \/
     additionalSize full + EXTEND_ADDITIONAL_BUFFER_SIZE_STEP small
       <= MAX_ADDITIONAL_BUFFER_SIZE small) /\
    (returned o = true ->
     pos_after o = getTailPosition full + 1 /\
     getTailPosition (buffer_after o) = getTailPosition full + 1).
Proof.
  apply (append_without_original_granted_iff small full 255 1).
  - exact small_ok.
  - exact full_reachable.
  - reflexivity.
  - lia.
Defined.

(** X9. With a non-empty original region the additional buffer is never
    used: on a reachable object with [mOriginalBufferSize > 0], every call
    that returns leaves the additional buffer and the used size [0] as they
    were, so the tail position stays [mOriginalBufferSize], and every write at
    or after [mOriginalBufferSize] returns [false]. *)
Theorem nonempty_original_blocks_additional c b data size pos o :
  constants_ok c -> reachable c b -> 0 < mOriginalBufferSize b ->
  pos + size <= INT_MAX ->
  writeUintAndAdvancePosition c b data size pos = Some o ->
  mAdditionalBuffer (buffer_after o) = mAdditionalBuffer b /\
  mUsedAdditionalBufferSize (buffer_after o) = 0 /\
  getTailPosition (buffer_after o) = mOriginalBufferSize b /\
  (mOriginalBufferSize b <= pos -> returned o = false).
Proof.
  intros c_ok Hb Horig Hmax Hcall.
  pose proof (reachable_well_formed c c_ok b Hb) as Hwf.
  pose proof Hwf as (_ & ((Hused0 & _) & _) & Happ).
  assert (mUsedAdditionalBufferSize b = 0) as Hzero by (destruct Happ; lia).
  pose proof (reachable_tail c c_ok b Hb) as Htail.
  destruct (returned o) eqn:Hret.
  - destruct (write_true_inv c c_ok b data size pos o Hwf Hmax Hcall Hret)
      as (b1 & bytes & Hsize & Hcheck & _ & Hstore).
    destruct (checkAndPrepareWriting_true_cases c c_ok b pos size b1 Hwf Hsize Hmax Hcheck)
      as [(_ & ? & _) | [(_ & ? & _ & ?) | (-> & Hlt & _)]]; try lia.
    destruct Hstore as [(? & _) | (_ & _ & Hafter)]; [lia|].
    rewrite Hafter. unfold getTailPosition in *. simpl.
    repeat split; try assumption; try lia.
  - rewrite (write_false_inv c b data size pos o Hcall Hret).
    repeat split; try assumption; try lia.
Qed.

Lemma nonempty_original_blocks_additional_witness :
  mAdditionalBuffer (buffer_after (mkOutcome false with_original 10 []))
  = mAdditionalBuffer with_original /\
  mUsedAdditionalBufferSize (buffer_after (mkOutcome false with_original 10 [])) = 0 /\
  getTailPosition (buffer_after (mkOutcome false with_original 10 []))
  = mOriginalBufferSize with_original /\
  (mOriginalBufferSize with_original <= 10 ->
   returned (mkOutcome false with_original 10 []) = false).
Proof.
  apply (nonempty_original_blocks_additional small with_original 16909060 4 10
           (mkOutcome false with_original 10 [])).
  - exact small_ok.
  - exact with_original_reachable.
  - vm_compute. reflexivity.
  - vm_compute. discriminate.
  - reflexivity.
Defined.

(** X10. Positions handed out stay valid: on a reachable object a call moves
    the tail position only when it is a successful write at the tail position
    itself, and then forward by exactly the width; every other call, granted
    or refused, leaves the tail position where it was. *)
Theorem tail_moves_only_by_append c b data size pos o :
  constants_ok c -> reachable c b ->
  writeUintAndAdvancePosition c b data size pos = Some o ->
  getTailPosition (buffer_after o) = getTailPosition b \/
  (returned o = true /\ pos = getTailPosition b /\
   getTailPosition (buffer_after o) = getTailPosition b + size).
Proof.
  intros c_ok Hb Hcall.
  pose proof (reachable_write c b data size pos o Hb Hcall) as Hb'.
  rewrite (reachable_tail c c_ok _ Hb'), (reachable_tail c c_ok b Hb).
  pose proof (reachable_well_formed c c_ok b Hb) as Hwf.
  pose proof Hwf as ((Hlen & _) & Hwithin & Happ).
  pose proof Hwithin as ((Hused0 & Hused) & Hcap).
  pose proof c_ok as [? ? ? ? ?].
  destruct (write_layout c b data size pos o Hcall)
    as [[-> _] | (b1 & Hsize & Hcheck & Hret & (_ & -> & _ & ->))]; [auto|].
  destruct (Z.eq_dec pos (mUsedAdditionalBufferSize b)) as [->|Hne];
    [destruct (Z_le_dec (mOriginalBufferSize b) (mUsedAdditionalBufferSize b))
      as [Hle|Hgt]|].
  - rewrite checkAndPrepareWriting_append in Hcheck by assumption.
    assert (mOriginalBufferSize b = 0) as Hzero by (destruct Happ; lia).
    right. split; [assumption|]. split; [lia|].
    destruct (additionalSize b <? mUsedAdditionalBufferSize b + size);
      [destruct (MAX_ADDITIONAL_BUFFER_SIZE c <? _); [discriminate|]|];
      injection Hcheck as <-; simpl; lia.
  - rewrite checkAndPrepareWriting_elsewhere in Hcheck by lia.
    injection Hcheck as _ <-. left. reflexivity.
  - rewrite checkAndPrepareWriting_elsewhere in Hcheck by lia.
    injection Hcheck as _ <-. left. reflexivity.
Qed.

Lemma tail_moves_only_by_append_witness :
  getTailPosition (buffer_after (mkOutcome true (after small initial_used_up 43981 2 8) 10 []))
  = getTailPosition initial_used_up \/
  (returned (mkOutcome true (after small initial_used_up 43981 2 8) 10 []) = true /\
   8 = getTailPosition initial_used_up /\
   getTailPosition (buffer_after (mkOutcome true (after small initial_used_up 43981 2 8) 10 []))
   = getTailPosition initial_used_up + 2).
Proof.
  apply (tail_moves_only_by_append small initial_used_up 43981 2 8
           (mkOutcome true (after small initial_used_up 43981 2 8) 10 [])).
  - exact small_ok.
  - exact initial_used_up_reachable.
  - reflexivity.
Defined.
